(** * runsc/mitigate/kubeconfig.go: the kubelet configuration wrapper and the
    reserved-CPU calculator

    A shallow embedding of [kubeconfig] and its methods, and the properties
    of them that the specification states.

    Modelling choices.
    - A [map[interface{}]interface{}] is a finite map ([gmap]) from dynamic
      keys to dynamic values, or the nil map.  A document is a tree: the
      maps that [yaml.Unmarshal] builds and the maps that [getSubfield]
      makes are fresh objects with a single owner, so a reference to a map
      is determined by its path from the root, and a method that mutates
      the receiver is a function from the tree before to the tree after
      ([walk_set_result] and [walk_then_assign] relate the two views).
    - [float64] is IEEE 754 binary64 as specified by [SpecFloat], with
      round-to-nearest-even arithmetic.
    - A run-time panic is an outcome of its own, next to a normal return.
    - Whether [make] gets its memory is not decided by the program: the
      size of the largest allocation that the run time can satisfy is a
      parameter, [mem], of the code that allocates. *)

From Stdlib Require Import ZArith QArith Floats.SpecFloat DecimalString.
From stdpp Require Import gmap strings list fin_maps.

#[local] Set Warnings "-register-all".
#[local] Open Scope Z_scope.

(** ** Go run-time notions *)

(** The run-time panics that the code of this file can raise, and the fatal
    error of the run time when it cannot obtain memory: a throw that ends
    the process, so that the call does not return either. *)
Inductive panic :=
  | PanicSliceBounds      (* slice bounds out of range *)
  | PanicIndexRange       (* index out of range *)
  | PanicNilMapAssign     (* assignment to entry in nil map *)
  | PanicMakeSliceLen     (* makeslice: len out of range *)
  | FatalOutOfMemory.     (* fatal error: runtime: out of memory *)

Inductive outcome (A : Type) :=
  | Returns (a : A)
  | Panics (p : panic).
Arguments Returns {A} a.
Arguments Panics {A} p.

#[global] Instance outcome_ret : MRet outcome := λ A a, Returns a.
#[global] Instance outcome_bind : MBind outcome := λ A B f o,
  match o with
  | Returns a => f a
  | Panics p => Panics p
  end.

(** *** float64 *)

Definition float64 := spec_float.
Definition fadd : float64 → float64 → float64 := SFadd 53 1024.
Definition fmul : float64 → float64 → float64 := SFmul 53 1024.

(** The constant [0.0], and the float64 nearest to each decimal literal of
    the source (Go rounds an untyped constant to the nearest float64 when it
    is assigned to one); [percentage_literals] below checks them. *)
Definition f0 : float64 := S754_zero false.
Definition f1000 : float64 := S754_finite false 8796093022208000 (-43).
Definition f0_06 : float64 := S754_finite false 8646911284551352 (-57).
Definition f0_01 : float64 := S754_finite false 5764607523034235 (-59).
Definition f0_005 : float64 := S754_finite false 5764607523034235 (-60).
Definition f0_0025 : float64 := S754_finite false 5764607523034235 (-61).

Definition min_int64 : Z := - 2 ^ 63.
Definition max_int64 : Z := 2 ^ 63 - 1.

(** [int64(x)] for a float64 [x]: the fraction is discarded.  Go leaves the
    result open when the value does not fit; amd64 gives the least int64. *)
Definition float64_to_int64 (x : float64) : Z :=
  match x with
  | S754_zero _ => 0
  | S754_finite s m e =>
      let t := match e with
               | Z.neg p => Z.pos m / 2 ^ Z.pos p
               | _ => Z.pos m * 2 ^ e
               end in
      let v := if s then - t else t in
      if (min_int64 <=? v) && (v <=? max_int64) then v else min_int64
  | _ => min_int64
  end.

(** The verb [%d] of [fmt.Sprintf] on an integer. *)
Definition format_d (n : Z) : string := NilZero.string_of_int (Z.to_int n).

(** [make([]float64, n)].  The run time ([runtime.makeslice]) panics on a
    negative length and on a slice of more than [maxAlloc] bytes, which is
    2^48 on linux/amd64 and linux/arm64; a float64 takes 8 bytes.  A length
    that passes this check goes to the allocator, which either gives the
    memory or ends the process with "out of memory".  Whether it can give
    it depends on the machine and the moment: [mem] is the size in bytes of
    the largest allocation that the run time can satisfy at the call (it is
    below the address space of the process, 2^47 bytes on linux/amd64).  A
    slice of no element needs no memory. *)
Definition maxAlloc : Z := 2 ^ 48.

Definition make_float64s (mem : Z) (n : Z) : outcome (list float64) :=
  if (n <? 0) || (maxAlloc <? 8 * n) then Panics PanicMakeSliceLen
  else if (0 <? n) && (mem <? 8 * n) then Panics FatalOutOfMemory
  else Returns (replicate (Z.to_nat n) f0).

(** [s[i] = x] on a slice. *)
Definition slice_store (s : list float64) (i : Z) (x : float64)
  : outcome (list float64) :=
  if (0 <=? i) && (i <? Z.of_nat (length s)) then Returns (<[Z.to_nat i := x]> s)
  else Panics PanicIndexRange.

(** [strings.TrimSuffix]. *)
Definition HasSuffix (s suffix : string) : bool :=
  (String.length suffix <=? String.length s)%nat &&
  String.eqb (String.substring (String.length s - String.length suffix)
                        (String.length suffix) s) suffix.

Definition TrimSuffix (s suffix : string) : string :=
  if HasSuffix s suffix
  then String.substring 0 (String.length s - String.length suffix) s
  else s.

(** ** Dynamic values: what an [interface{}] of a parsed document holds *)

Inductive key :=
  | KStr (s : string)
  | KInt (n : Z)
  | KBool (b : bool)
  | KNil.

#[global] Instance key_eq_dec : EqDecision key.
Proof. solve_decision. Defined.

#[global] Instance key_countable : Countable key.
Proof.
  refine (inj_countable'
    (λ k, match k with
          | KStr s => inl s
          | KInt n => inr (inl n)
          | KBool b => inr (inr (inl b))
          | KNil => inr (inr (inr ()))
          end)
    (λ x, match x with
          | inl s => KStr s
          | inr (inl n) => KInt n
          | inr (inr (inl b)) => KBool b
          | inr (inr (inr ())) => KNil
          end) _).
  by intros [].
Defined.

(** [VMap None] is the nil map, [VNil] the nil interface. *)
Inductive value :=
  | VNil
  | VStr (s : string)
  | VInt (n : Z)
  | VBool (b : bool)
  | VFloat (f : float64)
  | VSeq (l : list value)
  | VMap (r : option (gmap key value)).

Abbreviation gomap := (option (gmap key value)).

(** [v, ok := r[k]]. *)
Definition map_index (r : gomap) (k : key) : option value :=
  match r with
  | Some m => m !! k
  | None => None
  end.

(** ** The source's declarations *)

Record kubeconfig := { config : gomap }.

Definition kubeconfigSuffix : string :=
  "KUBE_SCHEDULER_CONFIG" +:+ String (Ascii.ascii_of_nat 10) "".
Definition kubeReservedField : string := "kubeReserved".
Definition cpuField : string := "cpu".
Definition gkeCustomReservedCPU : string := "1060m".

(** The errors of the source are built by [fmt.Errorf]; one constructor per
    format string, holding the arguments. *)
Inductive error :=
  | ErrNotAMap (result : value) (field : string)
      (* "result %v is not a map on field %s" *)
  | ErrNoField (field : string) (r : gomap)
      (* "field %s does not exist: %+v" *)
  | ErrSetField (err : error)
      (* "failed to set field: %v" *)
  | ErrNotInResult (field : string) (result : value)
      (* "field %s not in result: %+v" *)
  | ErrNotString (val : value).
      (* "reservedCPU field not string: %v" *)

(** The specification's names for the kinds of these errors. *)
Inductive error_kind := PathError | TypeError.

Definition kind_of (e : error) : error_kind :=
  match e with
  | ErrNotString _ => TypeError
  | _ => PathError
  end.

(** A method of [*kubeconfig]: from the receiver to the receiver as the call
    leaves it, and the call's outcome. *)
Definition method (A : Type) := kubeconfig → kubeconfig * outcome A.

(** The traversal of [getSubfield], from the node that [result] refers to.
    It gives the node as the traversal leaves it (a map that the loop
    assigns to is mutated in place) and what the loop returns. *)
Fixpoint walk (fields : list string) (get : bool) (result : value)
  : value * outcome (value * option error) :=
  match fields with
  | [] => (result, Returns (result, None))
  | field :: rest =>
      match result with
      | VMap r =>
          match map_index r (KStr field) with
          | Some child =>
              (* r[field] goes on referring to the child, as the rest of
                 the loop leaves it *)
              let '(child', out) := walk rest get child in
              (VMap (insert (KStr field) child' <$> r), out)
          | None =>
              (* in the get case, we do not want to make new fields. *)
              if get then (result, Returns (VNil, Some (ErrNoField field r)))
              else
                (* otherwise this is a set operation and we make fields as
                   we go. *)
                match r with
                | None => (result, Panics PanicNilMapAssign)
                | Some m =>
                    let '(child', out) := walk rest get (VMap (Some ∅)) in
                    (VMap (Some (<[KStr field := child']> m)), out)
                end
          end
      | _ => (result, Returns (VNil, Some (ErrNotAMap result field)))
      end
  end.

Definition as_map (r : gomap) (v : value) : gomap :=
  match v with
  | VMap r' => r'
  | _ => r
  end.

Definition getSubfield (fields : list string) (get : bool)
  : method (value * option error) := λ k,
  let '(root, out) := walk fields get (VMap (config k)) in
  ({| config := as_map (config k) root |}, out).

(** [r[fk] = v] through a reference [r] to the map at [path] under [node]. *)
Fixpoint assign_at (path : list string) (fk : key) (v : value) (node : value)
  : value :=
  match path, node with
  | [], VMap (Some m) => VMap (Some (<[fk := v]> m))
  | field :: rest, VMap (Some m) =>
      match m !! KStr field with
      | Some child => VMap (Some (<[KStr field := assign_at rest fk v child]> m))
      | None => node
      end
  | _, _ => node
  end.

Definition setField (fields : list string) (val : string)
  : method (option error) := λ k,
  match fields with
  | [] => (k, Panics PanicSliceBounds)
  | f0 :: _ =>
      let prefix := take (length fields - 1) fields in
      let field := List.last fields f0 in
      match getSubfield prefix false k with
      | (k1, Panics p) => (k1, Panics p)
      | (k1, Returns (_, Some err)) => (k1, Returns (Some (ErrSetField err)))
      | (k1, Returns (result, None)) =>
          match result with
          | VMap None => (k1, Panics PanicNilMapAssign)
          | VMap (Some _) =>
              ({| config := as_map (config k1)
                    (assign_at prefix (KStr field) (VStr val) (VMap (config k1))) |},
               Returns None)
          | _ => (k1, Returns (Some (ErrNotInResult field result)))
          end
      end
  end.

Definition getFieldAsString (fields : list string)
  : method (string * option error) := λ k,
  match getSubfield fields true k with
  | (k1, Panics p) => (k1, Panics p)
  | (k1, Returns (_, Some err)) => (k1, Returns ("", Some err))
  | (k1, Returns (val, None)) =>
      match val with
      | VStr ret => (k1, Returns (ret, None))
      | _ => (k1, Returns ("", Some (ErrNotString val)))
      end
  end.

Definition setReservedCPU (reserved : string) : method (option error) :=
  setField [kubeReservedField; cpuField] reserved.

Definition getReservedCPU : method (string * option error) :=
  getFieldAsString [kubeReservedField; cpuField].

(** *** computeReservedCPU *)

Record cpu_range := {
  percentage : float64;   (* Percentage of CPU for this range. *)
  minCPU : Z;             (* Minimum CPU for this percentage. *)
  maxCPU : Z;             (* Maximum CPU for this percentage. *)
}.

Definition cpu_ranges (cpus : Z) : list cpu_range :=
  [ {| percentage := f0_06; minCPU := 0; maxCPU := 1 |};
    {| percentage := f0_01; minCPU := 1; maxCPU := 2 |};
    {| percentage := f0_005; minCPU := 2; maxCPU := 4 |};
    {| percentage := f0_0025; minCPU := 4; maxCPU := cpus |} ].

(** [for i := p.minCPU; i < cpus && i < p.maxCPU; i++ { totals[i] = 1000 *
    p.percentage }]: [i] takes the values from [p.minCPU] up to the lesser of
    [cpus] and [p.maxCPU]. *)
Definition fill_range (cpus : Z) (totals : list float64) (p : cpu_range)
  : outcome (list float64) :=
  foldl (λ acc i, t ← acc; slice_store t i (fmul f1000 (percentage p)))
        (Returns totals)
        (seqZ (minCPU p) (Z.min cpus (maxCPU p) - minCPU p)).

Definition fill_totals (cpus : Z) (totals : list float64)
  : outcome (list float64) :=
  foldl (λ acc p, t ← acc; fill_range cpus t p) (Returns totals)
        (cpu_ranges cpus).

(** [for _, total := range totals { milliCPUs += total }]. *)
Definition aggregate (totals : list float64) : float64 :=
  foldl fadd f0 totals.

(** The code after the special case; [mem] is what [make] can allocate. *)
Definition computeGeneral (mem cpus : Z) : outcome (string * option error) :=
  totals ← make_float64s mem cpus;
  totals ← fill_totals cpus totals;
  mret (format_d (float64_to_int64 (aggregate totals)) +:+ "m", None).

Definition computeReservedCPU (mem cpus : Z)
  : method (string * option error) := λ k,
  if cpus <=? 2 then
    match getReservedCPU k with
    | (k1, Panics p) => (k1, Panics p)
    | (k1, Returns (val, err)) =>
        if bool_decide (err ≠ None) || String.eqb val gkeCustomReservedCPU
        then (k1, Returns (val, err))
        else (k1, computeGeneral mem cpus)
    end
  else (k, computeGeneral mem cpus).

(** *** getKubeconfig and unpack

    [yaml.Unmarshal] and [yaml.Marshal] belong to gopkg.in/yaml.v2, which is
    not part of this package: they are parameters here. *)
Section codec.
Variable yaml_error : Type.
(** [yaml.Unmarshal(data, &m)]: the map that [m] holds after the call. *)
Variable yaml_Unmarshal : string → gomap → gomap * option yaml_error.
Variable yaml_Marshal : gomap → string * option yaml_error.

Definition getKubeconfig (data : string) : kubeconfig * option yaml_error :=
  let data := TrimSuffix data kubeconfigSuffix in
  let '(cfg, err) := yaml_Unmarshal data (Some ∅) in
  ({| config := cfg |}, err).

Definition unpack (k : kubeconfig) : string * option yaml_error :=
  let '(ret, err) := yaml_Marshal (config k) in
  (ret +:+ kubeconfigSuffix, err).
End codec.

(** ** The specification's formula for the reserved CPU *)

(** How many core indices lie in [[lo, hi)] and in [[0, cpus)], for
    [0 <= lo]. *)
Definition core_indices (lo hi cpus : Z) : Z := Z.max 0 (Z.min hi cpus - lo).

(** 60 for the first core, 10 for the second, 5 for each of the next two and
    2.5 for each core after them, in milli-CPUs. *)
Definition reserved_milli (cpus : Z) : Q :=
  (60 * inject_Z (core_indices 0 1 cpus)
   + 10 * inject_Z (core_indices 1 2 cpus)
   + 5 * inject_Z (core_indices 2 4 cpus)
   + (5 # 2) * inject_Z (core_indices 4 cpus cpus))%Q.

(** Truncation of a rational to an integer. *)
Definition Qtrunc (q : Q) : Z := Z.quot (Qnum q) (Z.pos (Qden q)).

(** The special case of [computeReservedCPU] returns: the count is at most
    2, and the read of the field fails or gives the reserved value of GKE. *)
Definition short_circuits (cpus : Z) (k : kubeconfig) : Prop :=
  cpus ≤ 2 ∧
  ∃ val err, (getReservedCPU k).2 = Returns (val, err) ∧
             (err ≠ None ∨ val = gkeCustomReservedCPU).

(** The greatest length of a []float64 that [make] does not refuse. *)
Definition max_float64s : Z := maxAlloc / 8.

(** ** Documents of the package's tests *)

(** [kubeReserved: {cpu: <cpu>, ephemeral-storage: 41Gi, memory: 1019Mi}]. *)
Definition reserved_doc (cpu : string) : kubeconfig :=
  {| config := Some {[ KStr "kubeReserved" :=
       VMap (Some {[ KStr "cpu" := VStr cpu;
                     KStr "ephemeral-storage" := VStr "41Gi";
                     KStr "memory" := VStr "1019Mi" ]}) ]} |}.

Definition basicYAML : kubeconfig := reserved_doc "0m".
Definition specialYAML : kubeconfig := reserved_doc gkeCustomReservedCPU.

(** [kubeReserved: NotAMap]. *)
Definition notAMap : kubeconfig :=
  {| config := Some {[ KStr "kubeReserved" := VStr "NotAMap" ]} |}.

(** The empty document. *)
Definition emptyYAML : kubeconfig := {| config := Some ∅ |}.

(** ** Binary64 values that are multiples of one half *)

(** [shl n p] is [p * 2^n]. *)
Definition shl (n : nat) (p : positive) : positive := Nat.iter n xO p.
Arguments shl : simpl never.

(** The float64 of value [h / 2], for [0 <= h < 2^53]: a mantissa of 53
    bits. *)
Definition halves (h : Z) : float64 :=
  match h with
  | Z.pos p =>
      S754_finite false (shl (53 - Pos.size_nat p) p)
                  (Z.of_nat (Pos.size_nat p) - 54)
  | _ => f0
  end.

(** The slice of [computeReservedCPU] after the loop over the four ranges:
    60, 10, 5, 5, 2.5, 2.5, ... cut to [cpus] elements. *)
Definition filled (cpus : Z) : list float64 :=
  take (Z.to_nat cpus) [halves 120; halves 20; halves 10; halves 10]
    ++ replicate (Z.to_nat (cpus - 4)) (halves 5).

(** ** Reference descriptions of [setField] *)

(** [nested fields v]: the maps that a set traversal makes for [fields],
    with [v] under the last field. *)
Fixpoint nested (fields : list string) (v : value) : value :=
  match fields with
  | [] => v
  | field :: rest => VMap (Some {[ KStr field := nested rest v ]})
  end.

(** The recursive update that [setField] amounts to: the node at the path is
    replaced by [v], an absent key on the way gets a map of its own, and a
    node that is not a map stays as it is. *)
Fixpoint set_path (fields : list string) (v : value) (node : value) : value :=
  match fields with
  | [] => v
  | field :: rest =>
      match node with
      | VMap (Some m) =>
          VMap (Some (<[KStr field :=
                  set_path rest v (default (VMap (Some ∅)) (m !! KStr field))]> m))
      | _ => node
      end
  end.

(** [kubeReserved: {cpu: 1}]. *)
Definition intCPU : kubeconfig :=
  {| config := Some {[ KStr "kubeReserved" :=
                         VMap (Some {[ KStr "cpu" := VInt 1 ]}) ]} |}.

(** ** Properties of the traversal *)

(** The type assertion [v.(map[interface{}]interface{})]: the cases in which
    it fails are closed by [tac], the map is named [r]. *)
Tactic Notation "assert_map" constr(v) "as" simple_intropattern(r) "else" tactic3(tac) :=
  destruct v as [| | | | | |r]; try tac.

Section walk_facts.
Implicit Types (fields : list string) (result node : value) (r : gomap).

Lemma walk_map_root fields get r :
  ∃ r', (walk fields get (VMap r)).1 = VMap r'.
Proof.
  destruct fields as [|field rest]; simpl; [by eexists|].
  destruct (map_index r (KStr field)) as [child|] eqn:Hidx.
  - destruct (walk rest get child); by eexists.
  - destruct get; [by eexists|].
    destruct r as [m|]; [|by eexists].
    destruct (walk rest false (VMap (Some ∅))); by eexists.
Qed.

Lemma insert_child_id r k child :
  map_index r k = Some child → insert k child <$> r = r.
Proof.
  destruct r as [m|]; simpl; [|done].
  intros Hm. by rewrite insert_id.
Qed.

(** A traversal in get mode leaves every node as it was and does not panic. *)
Lemma walk_get fields result :
  ∃ v err, walk fields true result = (result, Returns (v, err)).
Proof.
  revert result. induction fields as [|field rest IH]; intros result; simpl.
  { by eexists _, _. }
  assert_map result as r else (by eexists _, _).
  destruct (map_index r (KStr field)) as [child|] eqn:Hidx; [|by eexists _, _].
  destruct (IH child) as (v & err & ->).
  rewrite insert_child_id by done. by eexists _, _.
Qed.

(** From a map that was just made, a traversal in set mode makes every
    further map and ends on an empty one. *)
Lemma walk_set_fresh fields :
  ∃ node, walk fields false (VMap (Some ∅)) = (node, Returns (VMap (Some ∅), None)).
Proof.
  induction fields as [|field rest [node IH]]; simpl; [by eexists|].
  rewrite lookup_empty, IH. by eexists.
Qed.

(** A traversal that ends otherwise than on a map has made no map. *)
Lemma walk_unchanged fields get result node out :
  walk fields get result = (node, out) →
  (∀ r, out ≠ Returns (VMap r, None)) →
  node = result.
Proof.
  revert result node. induction fields as [|field rest IH]; intros result node; simpl.
  { by intros [= <- <-]. }
  assert_map result as r else (by intros [= <- <-]).
  destruct (map_index r (KStr field)) as [child|] eqn:Hidx.
  - destruct (walk rest get child) as [child' out'] eqn:Hw.
    intros [= <- <-] Hout. rewrite (IH _ _ Hw Hout).
    by rewrite insert_child_id.
  - destruct get; [by intros [= <- <-]|].
    destruct r as [m|]; [|by intros [= <- <-]].
    destruct (walk_set_fresh rest) as [node' Hf]. rewrite Hf.
    intros [= <- <-] Hout. by destruct (Hout (Some ∅)).
Qed.
End walk_facts.

Section document_facts.
Implicit Types (fields path : list string) (k : kubeconfig) (v : value).

Lemma getSubfield_walk fields get k :
  getSubfield fields get k =
    ({| config := as_map (config k) (walk fields get (VMap (config k))).1 |},
     (walk fields get (VMap (config k))).2).
Proof. unfold getSubfield. by destruct (walk _ _ _). Qed.

Lemma kubeconfig_eta k : {| config := config k |} = k.
Proof. by destruct k. Qed.

Lemma getSubfield_get fields k :
  ∃ v err, getSubfield fields true k = (k, Returns (v, err)).
Proof.
  rewrite getSubfield_walk.
  destruct (walk_get fields (VMap (config k))) as (v & err & ->); simpl.
  rewrite kubeconfig_eta. by eexists _, _.
Qed.

Lemma getSubfield_unchanged fields get k k1 out :
  getSubfield fields get k = (k1, out) →
  (∀ r, out ≠ Returns (VMap r, None)) →
  k1 = k.
Proof.
  rewrite getSubfield_walk.
  destruct (walk fields get (VMap (config k))) as [node out'] eqn:Hw; simpl.
  intros [= <- <-] Hout.
  rewrite (walk_unchanged _ _ _ _ _ Hw Hout); simpl. apply kubeconfig_eta.
Qed.

(** [setField] on a path with a last element, in terms of the path before
    it. *)
Lemma setField_snoc path field val k :
  setField (path ++ [field]) val k =
    match getSubfield path false k with
    | (k1, Panics p) => (k1, Panics p)
    | (k1, Returns (_, Some err)) => (k1, Returns (Some (ErrSetField err)))
    | (k1, Returns (result, None)) =>
        match result with
        | VMap None => (k1, Panics PanicNilMapAssign)
        | VMap (Some _) =>
            ({| config := as_map (config k1)
                  (assign_at path (KStr field) (VStr val) (VMap (config k1))) |},
             Returns None)
        | _ => (k1, Returns (Some (ErrNotInResult field result)))
        end
    end.
Proof.
  unfold setField.
  destruct (path ++ [field]) as [|f0 fs] eqn:Heq.
  { by destruct path. }
  rewrite <- Heq, length_app, last_last; simpl.
  replace (length path + 1 - 1)%nat with (length path) by lia.
  by rewrite take_app_length.
Qed.

Lemma fields_snoc fields :
  fields ≠ [] → ∃ path field, fields = path ++ [field].
Proof.
  destruct fields as [|f fs] using rev_ind; [done|]. by eexists _, _.
Qed.

End document_facts.

Section walk_paths.
Implicit Types (fields path : list string) (result node : value) (r : gomap).

(** A path that a get resolves is traversed by a set without making
    anything. *)
Lemma walk_get_set path result node x :
  walk path true result = (node, Returns (x, None)) →
  walk path false result = (result, Returns (x, None)).
Proof.
  revert result node. induction path as [|field rest IH]; intros result node; simpl.
  { by intros [= <- <-]. }
  assert_map result as r else (done).
  destruct (map_index r (KStr field)) as [child|] eqn:Hidx; [|done].
  destruct (walk rest true child) as [child' out] eqn:Hw.
  intros [= <- ->]. rewrite (IH _ _ Hw). by rewrite insert_child_id.
Qed.

(** A traversal that goes on below a node that is not a map fails there. *)
Lemma walk_below_non_map path field rest get result node x :
  walk path true result = (node, Returns (x, None)) →
  (∀ r, x ≠ VMap r) →
  walk (path ++ field :: rest) get result
    = (result, Returns (VNil, Some (ErrNotAMap x field))).
Proof.
  revert result node. induction path as [|f path IH]; intros result node; simpl.
  { intros [= <- <-] Hx. destruct result; try done. by destruct (Hx r). }
  assert_map result as r else (done).
  destruct (map_index r (KStr f)) as [child|] eqn:Hidx; [|done].
  destruct (walk path true child) as [child' out] eqn:Hw.
  intros [= <- ->] Hx. rewrite (IH _ _ Hw Hx). by rewrite insert_child_id.
Qed.

(** After a set traversal, its result is the node at the path. *)
Lemma walk_set_result path result node x :
  walk path false result = (node, Returns (x, None)) →
  walk path true node = (node, Returns (x, None)).
Proof.
  revert result node. induction path as [|field rest IH]; intros result node; simpl.
  { by intros [= <- <-]. }
  assert_map result as r else (done).
  destruct (map_index r (KStr field)) as [child|] eqn:Hidx.
  - destruct r as [m|]; [simpl in *|done].
    destruct (walk rest false child) as [child' out] eqn:Hw.
    intros [= <- ->]. simpl. rewrite lookup_insert_eq, (IH _ _ Hw).
    by rewrite insert_insert_eq.
  - destruct r as [m|]; [|done].
    destruct (walk rest false (VMap (Some ∅))) as [child' out] eqn:Hw.
    intros [= <- ->]. simpl. rewrite lookup_insert_eq, (IH _ _ Hw).
    by rewrite insert_insert_eq.
Qed.

Lemma assign_at_map_root path fk v r :
  ∃ r', assign_at path fk v (VMap r) = VMap r'.
Proof.
  destruct path as [|field rest], r as [m|]; simpl; try by eexists.
  destruct (m !! KStr field); by eexists.
Qed.

(** [assign_at] assigns in the map that the path leads to. *)
Lemma assign_at_result path fk v node m :
  walk path true node = (node, Returns (VMap (Some m), None)) →
  walk path true (assign_at path fk v node)
    = (assign_at path fk v node, Returns (VMap (Some (<[fk := v]> m)), None)).
Proof.
  revert node. induction path as [|f path IH]; intros node; simpl.
  { by intros [= ->]. }
  assert_map node as [m0|] else (done). simpl.
  destruct (m0 !! KStr f) as [child|] eqn:Hidx; [|done].
  destruct (walk_get path child) as (x & err & Hw). rewrite Hw.
  intros [= _ -> ->]. simpl. rewrite lookup_insert_eq, (IH _ Hw).
  by rewrite insert_insert_eq.
Qed.

(** The assignment [r[field] = value] of [setField]: [r] is the map that
    [getSubfield] returned, and after the assignment the node at the path is
    that map with [field] bound to [value]. *)
Lemma walk_then_assign path fk v result node m :
  walk path false result = (node, Returns (VMap (Some m), None)) →
  walk path true (assign_at path fk v node)
    = (assign_at path fk v node, Returns (VMap (Some (<[fk := v]> m)), None)).
Proof. intros Hw. apply assign_at_result. by eapply walk_set_result. Qed.

(** Reading back what was assigned at the end of a set traversal. *)
Lemma walk_assign_read path field val result node m :
  walk path false result = (node, Returns (VMap (Some m), None)) →
  (walk (path ++ [field]) true (assign_at path (KStr field) (VStr val) node)).2
    = Returns (VStr val, None).
Proof.
  revert result node. induction path as [|f path IH]; intros result node; simpl.
  { intros [= -> ->]. simpl. by rewrite lookup_insert_eq. }
  assert_map result as r else (done).
  destruct (map_index r (KStr f)) as [child|] eqn:Hidx.
  - destruct r as [m0|]; [simpl in *|done].
    destruct (walk path false child) as [child' out] eqn:Hw.
    intros [= <- ->]. simpl. rewrite !lookup_insert_eq. simpl.
    rewrite lookup_insert_eq.
    specialize (IH _ _ Hw).
    by destruct (walk (path ++ [field]) true _).
  - destruct r as [m0|]; [|done].
    destruct (walk path false (VMap (Some ∅))) as [child' out] eqn:Hw.
    intros [= <- ->]. simpl. rewrite !lookup_insert_eq. simpl.
    rewrite lookup_insert_eq.
    specialize (IH _ _ Hw).
    by destruct (walk (path ++ [field]) true _).
Qed.
End walk_paths.

Section receiver_facts.
Implicit Types (fields path : list string) (k : kubeconfig).

Lemma getSubfield_true_resolves path k1 k x :
  getSubfield path true k = (k1, Returns (x, None)) →
  walk path true (VMap (config k)) = (VMap (config k), Returns (x, None)).
Proof.
  rewrite getSubfield_walk.
  destruct (walk_get path (VMap (config k))) as (v & err & ->); simpl.
  by intros [= _ -> ->].
Qed.

Lemma getSubfield_set_root path k k1 out :
  getSubfield path false k = (k1, out) →
  walk path false (VMap (config k)) = (VMap (config k1), out).
Proof.
  rewrite getSubfield_walk.
  destruct (walk_map_root path false (config k)) as [r' Hr].
  destruct (walk path false (VMap (config k))) as [node out'].
  simpl in *. subst node. by intros [= <- <-].
Qed.

End receiver_facts.

Lemma setField_non_map_parent path field val k x :
  getSubfield path true k = (k, Returns (x, None)) →
  (∀ r, x ≠ VMap r) →
  setField (path ++ [field]) val k = (k, Returns (Some (ErrNotInResult field x))).
Proof.
  intros Hget Hx. rewrite setField_snoc.
  apply getSubfield_true_resolves, walk_get_set in Hget.
  rewrite getSubfield_walk, Hget; simpl. rewrite kubeconfig_eta.
  assert_map x as r else (done). by destruct (Hx r).
Qed.

Lemma setField_non_map_above path field rest val k x :
  rest ≠ [] →
  getSubfield path true k = (k, Returns (x, None)) →
  (∀ r, x ≠ VMap r) →
  setField (path ++ field :: rest) val k
    = (k, Returns (Some (ErrSetField (ErrNotAMap x field)))).
Proof.
  intros Hrest Hget Hx.
  destruct (fields_snoc _ Hrest) as (rest' & last & ->).
  replace (path ++ field :: rest' ++ [last])
    with ((path ++ field :: rest') ++ [last]) by by rewrite <- app_assoc.
  rewrite setField_snoc.
  apply getSubfield_true_resolves in Hget.
  rewrite getSubfield_walk, (walk_below_non_map _ _ _ _ _ _ _ Hget Hx); simpl.
  by rewrite kubeconfig_eta.
Qed.

(** ** Exact float64 arithmetic on halves *)

(** The float64 constants are the nearest to the decimal literals of the
    source: each is within half a unit in the last place of 6/100, 1/100,
    5/1000 and 25/10000, and is the correctly rounded quotient. *)
Lemma percentage_literals :
  let of_int n := binary_normalize 53 1024 n 0 false in
  f1000 = of_int 1000 ∧
  f0_06 = SFdiv 53 1024 (of_int 6) (of_int 100) ∧
  f0_01 = SFdiv 53 1024 (of_int 1) (of_int 100) ∧
  f0_005 = SFdiv 53 1024 (of_int 5) (of_int 1000) ∧
  f0_0025 = SFdiv 53 1024 (of_int 25) (of_int 10000) ∧
  2 * Z.abs (100 * 8646911284551352 - 6 * 2 ^ 57) ≤ 100 ∧
  2 * Z.abs (100 * 5764607523034235 - 1 * 2 ^ 59) ≤ 100 ∧
  2 * Z.abs (1000 * 5764607523034235 - 5 * 2 ^ 60) ≤ 1000 ∧
  2 * Z.abs (10000 * 5764607523034235 - 25 * 2 ^ 61) ≤ 10000.
Proof. by vm_compute. Qed.

Section float_facts.
Implicit Types (p q m : positive) (n j : nat) (e : Z).

Lemma shl_S n p : shl (S n) p = ((shl n p)~0)%positive.
Proof. done. Qed.

Lemma shl_add n j p : shl (n + j) p = shl n (shl j p).
Proof. unfold shl. by rewrite Nat.iter_add. Qed.

Lemma shl_plus n p q : (shl n p + shl n q)%positive = shl n (p + q).
Proof. induction n as [|n IH]; [done|]. by rewrite !shl_S, <- IH. Qed.

Lemma shl_Z n p : Z.pos (shl n p) = Z.pos p * 2 ^ Z.of_nat n.
Proof.
  induction n as [|n IH]; [unfold shl; simpl; lia|].
  rewrite Nat2Z.inj_succ, Z.pow_succ_r by lia.
  rewrite shl_S, Pos2Z.inj_xO, IH. ring.
Qed.

Lemma size_shl n p : Pos.size_nat (shl n p) = (n + Pos.size_nat p)%nat.
Proof. induction n as [|n IH]; [done|]. rewrite shl_S. simpl. by rewrite IH. Qed.

Lemma digits2_size p : Z.pos (digits2_pos p) = Z.of_nat (Pos.size_nat p).
Proof. induction p; simpl; lia. Qed.

Lemma size_bound p n : (Pos.size_nat p ≤ n)%nat ↔ Z.pos p < 2 ^ Z.of_nat n.
Proof.
  revert n. induction p as [p IH|p IH|]; intros [|n]; simpl Pos.size_nat;
    rewrite ?Nat2Z.inj_succ, ?Z.pow_succ_r by lia;
    try specialize (IH n); try (simpl; lia).
Qed.

Lemma iter_pos_nat {A} (f : A → A) p x :
  SpecFloat.iter_pos f p x = Nat.iter (Pos.to_nat p) f x.
Proof.
  revert x. induction p as [p IH|p IH|]; intros x; [| |done].
  - change (SpecFloat.iter_pos f p~1 x)
      with (SpecFloat.iter_pos f p (SpecFloat.iter_pos f p (f x))).
    rewrite !IH, Pos2Nat.inj_xI, <- Nat.iter_add, <- Nat.iter_succ_r.
    f_equal. lia.
  - change (SpecFloat.iter_pos f p~0 x)
      with (SpecFloat.iter_pos f p (SpecFloat.iter_pos f p x)).
    rewrite !IH, Pos2Nat.inj_xO, <- Nat.iter_add. f_equal. lia.
Qed.

Lemma shr_1_shl n m :
  Nat.iter n shr_1 {| shr_m := Z.pos (shl n m); shr_r := false; shr_s := false |}
    = {| shr_m := Z.pos m; shr_r := false; shr_s := false |}.
Proof.
  induction n as [|n IH]; [done|]. by rewrite Nat.iter_succ_r, shl_S.
Qed.

Lemma shl_align_shl m e e' :
  shl_align m e e' = (shl (Z.to_nat (e - e')) m, Z.min e e').
Proof.
  unfold shl_align. destruct (e' - e) as [|d|d] eqn:Hd.
  - replace (e - e') with 0 by lia. simpl. f_equal. lia.
  - replace (Z.to_nat (e - e')) with 0%nat by lia. simpl. f_equal. lia.
  - replace (e - e') with (Z.pos d) by lia.
    rewrite Pos2Nat.inj_iter. simpl. f_equal. lia.
Qed.

Lemma shr_shl j m e :
  shr {| shr_m := Z.pos (shl j m); shr_r := false; shr_s := false |} e (Z.of_nat j)
    = ({| shr_m := Z.pos m; shr_r := false; shr_s := false |}, e + Z.of_nat j).
Proof.
  unfold shr. destruct j as [|j].
  - simpl. f_equal. lia.
  - change (Z.of_nat (S j)) with (Z.pos (Pos.of_succ_nat j)). cbv beta iota.
    by rewrite iter_pos_nat, SuccNat2Pos.id_succ, shr_1_shl.
Qed.

(** Rounding a mantissa whose bits below the 53 leading ones are zero. *)
Lemma binary_round_aux_exact j m e :
  Pos.size_nat m = 53%nat → -1074 ≤ e ≤ 971 →
  binary_round_aux 53 1024 false (Z.pos (shl j m)) (e - Z.of_nat j) loc_Exact
    = S754_finite false m e.
Proof.
  intros Hm He. unfold binary_round_aux, shr_fexp, Zdigits2.
  rewrite digits2_size, size_shl, Hm. simpl shr_record_of_loc.
  replace (fexp 53 1024 (Z.of_nat (j + 53) + (e - Z.of_nat j)) - (e - Z.of_nat j))
    with (Z.of_nat j) by (unfold fexp, emin; lia).
  rewrite shr_shl. cbv beta iota.
  cbn [shr_m loc_of_shr_record round_nearest_even Zdigits2 shr_record_of_loc].
  rewrite digits2_size, Hm.
  replace (fexp 53 1024 (Z.of_nat 53 + (e - Z.of_nat j + Z.of_nat j))
             - (e - Z.of_nat j + Z.of_nat j)) with 0 by (unfold fexp, emin; lia).
  simpl. replace (e - Z.of_nat j + Z.of_nat j) with e by lia.
  destruct (Z.leb_spec e (1024 - 53)); [done|lia].
Qed.

Lemma binary_round_halves j p :
  (Pos.size_nat p ≤ 53)%nat →
  binary_round 53 1024 false (shl j p) (-1 - Z.of_nat j) = halves (Z.pos p).
Proof.
  intros Hp. unfold binary_round.
  rewrite digits2_size, size_shl, shl_align_shl.
  assert (Hs : (1 ≤ Pos.size_nat p)%nat) by (destruct p; simpl; lia).
  set (s := Pos.size_nat p) in *.
  replace (fexp 53 1024 (Z.of_nat (j + s) + (-1 - Z.of_nat j)))
    with (Z.of_nat s - 54) by (unfold fexp, emin; lia).
  rewrite <- shl_add.
  set (t := Z.to_nat (-1 - Z.of_nat j - (Z.of_nat s - 54))).
  replace (t + j)%nat with (((t + j) - (53 - s)) + (53 - s))%nat by lia.
  rewrite shl_add.
  replace (Z.min (-1 - Z.of_nat j) (Z.of_nat s - 54))
    with (Z.of_nat s - 54 - Z.of_nat ((t + j) - (53 - s))) by lia.
  rewrite binary_round_aux_exact; [done| |lia].
  rewrite size_shl. fold s. lia.
Qed.

(** [halves h] is a float64 in canonical form, and its value, mantissa times
    2 to the exponent, is [h / 2]. *)
Lemma halves_value p :
  (Pos.size_nat p ≤ 53)%nat →
  ∃ m e, halves (Z.pos p) = S754_finite false m e ∧ e < 0 ∧
         2 * Z.pos m = Z.pos p * 2 ^ (- e) ∧
         valid_binary 53 1024 (halves (Z.pos p)) = true.
Proof.
  intros Hp.
  assert (Hs : (1 ≤ Pos.size_nat p)%nat) by (destruct p; simpl; lia).
  eexists _, _. split; [done|]. split; [lia|]. split.
  - rewrite shl_Z.
    replace (- (Z.of_nat (Pos.size_nat p) - 54))
      with (Z.succ (Z.of_nat (53 - Pos.size_nat p))) by lia.
    rewrite Z.pow_succ_r by lia. ring.
  - unfold halves, valid_binary, bounded, canonical_mantissa.
    rewrite digits2_size, size_shl.
    apply andb_true_iff. split.
    + apply Z.eqb_eq. unfold fexp, emin. lia.
    + apply Z.leb_le. lia.
Qed.

Lemma halves_examples :
  let of_int (z : Z) := binary_normalize 53 1024 z 0 false in
  halves 120 = of_int 60 ∧ halves 20 = of_int 10 ∧ halves 10 = of_int 5 ∧
  halves 5 = SFdiv 53 1024 (of_int 5) (of_int 2) ∧ halves 0 = f0.
Proof. by vm_compute. Qed.

Lemma size_nat_le p q : (p ≤ q)%positive → (Pos.size_nat p ≤ Pos.size_nat q)%nat.
Proof.
  intros Hpq. apply size_bound.
  assert (Z.pos q < 2 ^ Z.of_nat (Pos.size_nat q)) by by apply size_bound.
  lia.
Qed.

(** Adding two such floats is exact as long as the sum has 53 bits. *)
Lemma fadd_halves a b :
  0 ≤ a → 0 ≤ b → a + b < 2 ^ 53 →
  fadd (halves a) (halves b) = halves (a + b).
Proof.
  intros Ha Hb Hab.
  destruct a as [|p|p], b as [|q|q]; try lia; try done.
  assert (Hs : (Pos.size_nat (p + q) ≤ 53)%nat) by (apply size_bound; simpl; lia).
  pose proof (size_nat_le p (p + q) ltac:(lia)) as Hp.
  pose proof (size_nat_le q (p + q) ltac:(lia)) as Hq.
  assert (Hp1 : (1 ≤ Pos.size_nat p)%nat) by (destruct p; simpl; lia).
  assert (Hq1 : (1 ≤ Pos.size_nat q)%nat) by (destruct q; simpl; lia).
  change (Z.pos p + Z.pos q) with (Z.pos (p + q)).
  unfold fadd, halves, SFadd.
  rewrite !shl_align_shl, <- !shl_add. simpl fst. unfold cond_Zopp.
  set (sp := Pos.size_nat p) in *. set (sq := Pos.size_nat q) in *.
  set (j := (53 - Nat.min sp sq)%nat).
  replace (Z.to_nat _ + (53 - sp))%nat with j by lia.
  replace (Z.to_nat _ + (53 - sq))%nat with j by lia.
  change (Z.pos (shl j p) + Z.pos (shl j q)) with (Z.pos (shl j p + shl j q)).
  rewrite shl_plus. simpl binary_normalize.
  replace (Z.min (Z.of_nat sp - 54) (Z.of_nat sq - 54)) with (-1 - Z.of_nat j) by lia.
  by rewrite binary_round_halves.
Qed.
End float_facts.

(** ** The reserved-CPU calculator *)

Section calculator_facts.
Implicit Types (cpus h : Z) (k : kubeconfig) (totals : list float64).
#[local] Arguments halves : simpl never.

Lemma float64_to_int64_halves h :
  0 ≤ h < 2 ^ 53 → float64_to_int64 (halves h) = h / 2.
Proof.
  intros Hh. destruct h as [|p|p]; [done| |lia].
  assert (Hs : (Pos.size_nat p ≤ 53)%nat) by (apply size_bound; simpl; lia).
  assert (Hs1 : (1 ≤ Pos.size_nat p)%nat) by (destruct p; simpl; lia).
  unfold halves, float64_to_int64.
  destruct (Z.of_nat (Pos.size_nat p) - 54) as [|q|q] eqn:He; [lia|lia|].
  rewrite shl_Z.
  replace (Z.pos q) with (Z.of_nat (53 - Pos.size_nat p) + 1) by lia.
  rewrite Z.pow_add_r, Z.pow_1_r by lia.
  rewrite (Z.mul_comm _ 2), Z.div_mul_cancel_r by lia.
  assert (0 ≤ Z.pos p / 2 < 2 ^ 53) by (split; [apply Z.div_pos|apply Z.div_lt_upper_bound]; lia).
  unfold min_int64, max_int64.
  destruct (Z.leb_spec (- 2 ^ 63) (Z.pos p / 2)); [|lia].
  destruct (Z.leb_spec (Z.pos p / 2) (2 ^ 63 - 1)); [done|lia].
Qed.

(** The four products [1000 * p.percentage] are 60, 10, 5 and 2.5. *)
Lemma fmul_percentages :
  fmul f1000 f0_06 = halves 120 ∧ fmul f1000 f0_01 = halves 20 ∧
  fmul f1000 f0_005 = halves 10 ∧ fmul f1000 f0_0025 = halves 5.
Proof. by vm_compute. Qed.

(** The assignments of one range, on a slice that holds its indices. *)
Lemma store_loop totals (lo cnt : nat) x :
  (lo + cnt ≤ length totals)%nat →
  foldl (λ acc i, t ← acc; slice_store t i x) (Returns totals)
        (seqZ (Z.of_nat lo) (Z.of_nat cnt))
    = Returns (take lo totals ++ replicate cnt x ++ drop (lo + cnt) totals).
Proof.
  revert lo totals. induction cnt as [|cnt IH]; intros lo totals Hlen.
  { simpl. by rewrite Nat.add_0_r, take_drop. }
  rewrite seqZ_cons by lia. simpl foldl.
  unfold slice_store at 2.
  destruct (Z.leb_spec 0 (Z.of_nat lo)); [|lia].
  destruct (Z.ltb_spec (Z.of_nat lo) (Z.of_nat (length totals))); [|lia].
  simpl andb. cbv iota.
  replace (Z.succ (Z.of_nat lo)) with (Z.of_nat (S lo)) by lia.
  replace (Z.pred (Z.of_nat (S cnt))) with (Z.of_nat cnt) by lia.
  rewrite Nat2Z.id, IH by (rewrite length_insert; lia).
  destruct (lookup_lt_is_Some_2 totals lo ltac:(lia)) as [y Hy].
  rewrite (take_S_r _ _ x) by (rewrite list_lookup_insert_eq; [done|lia]).
  rewrite take_insert_ge by lia.
  rewrite drop_insert_lt by lia.
  replace (S lo + cnt)%nat with (lo + S cnt)%nat by lia.
  by rewrite <- app_assoc.
Qed.

Lemma fill_range_nat cpus totals pct (lo cnt : nat) hi x :
  Z.of_nat (length totals) = cpus →
  Z.to_nat (Z.min cpus hi - Z.of_nat lo) = cnt →
  fmul f1000 pct = x →
  fill_range cpus totals {| percentage := pct; minCPU := Z.of_nat lo; maxCPU := hi |}
    = Returns (take lo totals ++ replicate cnt x ++ drop (lo + cnt) totals).
Proof.
  intros Hlen Hcnt <-. unfold fill_range. cbn [percentage minCPU maxCPU].
  replace (seqZ (Z.of_nat lo) (Z.min cpus hi - Z.of_nat lo))
    with (seqZ (Z.of_nat lo) (Z.of_nat cnt))
    by (unfold seqZ; by rewrite Nat2Z.id, Hcnt).
  destruct cnt as [|cnt].
  { simpl. by rewrite Nat.add_0_r, take_drop. }
  apply store_loop. lia.
Qed.

Lemma fill_totals_filled cpus :
  0 ≤ cpus →
  fill_totals cpus (replicate (Z.to_nat cpus) f0) = Returns (filled cpus).
Proof.
  intros Hcpus. destruct (Z.lt_ge_cases cpus 4) as [Hlt|Hge].
  { assert (cpus = 0 ∨ cpus = 1 ∨ cpus = 2 ∨ cpus = 3) as [->|[->|[->| ->]]]
      by lia; by vm_compute. }
  destruct fmul_percentages as (H1 & H2 & H3 & H4).
  assert (∃ j : nat, cpus = Z.of_nat (4 + j)) as [j ->]
    by (exists (Z.to_nat (cpus - 4)); lia).
  unfold fill_totals, cpu_ranges, filled. rewrite Nat2Z.id.
  replace (Z.to_nat (Z.of_nat (4 + j) - 4)) with j by lia.
  remember (Z.of_nat (4 + j)) as cpus eqn:Hc. simpl replicate. simpl foldl.
  rewrite (fill_range_nat cpus _ f0_06 0 1 1 (halves 120));
    [|simpl; rewrite ?length_drop, ?length_replicate; lia|lia|done].
  simpl mbind.
  rewrite (fill_range_nat cpus _ f0_01 1 1 2 (halves 20));
    [|simpl; rewrite ?length_drop, ?length_replicate; lia|lia|done].
  simpl mbind.
  rewrite (fill_range_nat cpus _ f0_005 2 2 4 (halves 10));
    [|simpl; rewrite ?length_drop, ?length_replicate; lia|lia|done].
  simpl mbind.
  rewrite (fill_range_nat cpus _ f0_0025 4 j cpus (halves 5));
    [|simpl; rewrite ?length_drop, ?length_replicate; lia|lia|done].
  simpl. rewrite take_nil, drop_0, drop_replicate, Nat.sub_diag. simpl.
  by rewrite app_nil_r.
Qed.

Lemma aggregate_replicate h x (j : nat) :
  0 ≤ h → 0 ≤ x → h + x * Z.of_nat j < 2 ^ 53 →
  foldl fadd (halves h) (replicate j (halves x)) = halves (h + x * Z.of_nat j).
Proof.
  revert h. induction j as [|j IH]; intros h Hh Hx Hb; simpl.
  { f_equal. lia. }
  rewrite fadd_halves, IH by nia. f_equal. lia.
Qed.

Lemma aggregate_filled cpus :
  4 ≤ cpus → 160 + 5 * (cpus - 4) < 2 ^ 53 →
  aggregate (filled cpus) = halves (160 + 5 * (cpus - 4)).
Proof.
  intros Hge Hb. unfold aggregate, filled.
  rewrite take_ge by (simpl; lia). rewrite foldl_app.
  change (foldl fadd f0 [halves 120; halves 20; halves 10; halves 10])
    with (halves 160).
  rewrite aggregate_replicate by lia. f_equal. lia.
Qed.

Lemma Qtrunc_reserved_milli cpus :
  4 ≤ cpus → Qtrunc (reserved_milli cpus) = (160 + 5 * (cpus - 4)) / 2.
Proof.
  intros Hge. unfold reserved_milli, core_indices.
  replace (Z.max 0 (Z.min 1 cpus - 0)) with 1 by lia.
  replace (Z.max 0 (Z.min 2 cpus - 1)) with 1 by lia.
  replace (Z.max 0 (Z.min 4 cpus - 2)) with 2 by lia.
  replace (Z.max 0 (Z.min cpus cpus - 4)) with (cpus - 4) by lia.
  unfold Qtrunc. simpl.
  rewrite Z.quot_div_nonneg by lia. f_equal. lia.
Qed.

Lemma make_float64s_ok mem cpus :
  0 ≤ cpus ≤ max_float64s → 8 * cpus ≤ mem →
  make_float64s mem cpus = Returns (replicate (Z.to_nat cpus) f0).
Proof.
  change max_float64s with 35184372088832. intros Hc Hmem.
  unfold make_float64s. change maxAlloc with 281474976710656.
  destruct (Z.ltb_spec cpus 0); [lia|].
  destruct (Z.ltb_spec 281474976710656 (8 * cpus)); [lia|].
  destruct (Z.ltb_spec mem (8 * cpus)); [lia|]. by rewrite andb_false_r.
Qed.

(** The general computation, on a count that [make] accepts. *)
Lemma computeGeneral_formula mem cpus :
  0 ≤ cpus ≤ max_float64s → 8 * cpus ≤ mem →
  computeGeneral mem cpus
    = Returns (format_d (Qtrunc (reserved_milli cpus)) +:+ "m", None).
Proof.
  intros Hc Hmem. unfold computeGeneral.
  rewrite make_float64s_ok by done. simpl mbind.
  rewrite fill_totals_filled by lia. simpl mbind.
  destruct (Z.lt_ge_cases cpus 4) as [Hlt|Hge].
  { assert (cpus = 0 ∨ cpus = 1 ∨ cpus = 2 ∨ cpus = 3) as [->|[->|[->| ->]]]
      by lia; by vm_compute. }
  change max_float64s with 35184372088832 in Hc.
  rewrite aggregate_filled, float64_to_int64_halves, Qtrunc_reserved_milli; 
    [done|lia..].
Qed.
End calculator_facts.

(** ** The marker of kubelet-config.yaml *)

Section marker_facts.
Implicit Types (s t body : string).

Lemma length_append s t :
  String.length (s +:+ t) = (String.length s + String.length t)%nat.
Proof. induction s as [|c s IH]; simpl; [done|]. by rewrite IH. Qed.

Lemma substring_whole s : String.substring 0 (String.length s) s = s.
Proof. induction s as [|c s IH]; simpl; [done|]. by rewrite IH. Qed.

Lemma substring_append_l s t :
  String.substring 0 (String.length s) (s +:+ t) = s.
Proof.
  induction s as [|c s IH]; simpl; [by destruct t|]. by rewrite IH.
Qed.

Lemma substring_append_r s t :
  String.substring (String.length s) (String.length t) (s +:+ t) = t.
Proof. induction s as [|c s IH]; simpl; [apply substring_whole|done]. Qed.

(** The marker is stripped from a document that ends with it, once. *)
Lemma TrimSuffix_append body t : TrimSuffix (body +:+ t) t = body.
Proof.
  unfold TrimSuffix, HasSuffix. rewrite length_append.
  replace (String.length body + String.length t - String.length t)%nat
    with (String.length body) by lia.
  rewrite substring_append_r, substring_append_l, String.eqb_refl.
  by destruct (Nat.leb_spec (String.length t) (String.length body + String.length t));
    [|lia].
Qed.

(** A document without the marker is parsed as it is. *)
Lemma TrimSuffix_absent s t : HasSuffix s t = false → TrimSuffix s t = s.
Proof. unfold TrimSuffix. by intros ->. Qed.

Context (yaml_error : Type).
Context (yaml_Unmarshal : string → gomap → gomap * option yaml_error).
Context (yaml_Marshal : gomap → string * option yaml_error).

(** What [getKubeconfig] and [unpack] add to the codec: on a document that
    is a body followed by the marker, their round trip is the codec's round
    trip on the body. *)
Lemma marker_round_trip body cfg :
  yaml_Unmarshal body (Some ∅) = (cfg, None) →
  yaml_Marshal cfg = (body, None) →
  unpack yaml_error yaml_Marshal
    (getKubeconfig yaml_error yaml_Unmarshal (body +:+ kubeconfigSuffix)).1
    = (body +:+ kubeconfigSuffix, None).
Proof.
  intros Hu Hm. unfold getKubeconfig, unpack.
  rewrite TrimSuffix_append, Hu. simpl. by rewrite Hm.
Qed.
End marker_facts.

(** ** The properties of the specification *)

Section read_facts.
Implicit Types (fields : list string) (k : kubeconfig) (cpus : Z).

Lemma getFieldAsString_get fields k :
  ∃ val err, getFieldAsString fields k = (k, Returns (val, err)).
Proof.
  unfold getFieldAsString.
  destruct (getSubfield_get fields k) as (v & err & ->).
  destruct err as [e|]; [by eexists _, _|].
  destruct v; by eexists _, _.
Qed.

Lemma getReservedCPU_get k :
  ∃ val err, getReservedCPU k = (k, Returns (val, err)).
Proof. apply getFieldAsString_get. Qed.

(** The control flow of [computeReservedCPU], given what the read returns. *)
Lemma computeReservedCPU_read mem cpus k val err :
  (getReservedCPU k).2 = Returns (val, err) →
  computeReservedCPU mem cpus k =
    (k, if (cpus <=? 2) &&
           (bool_decide (err ≠ None) || String.eqb val gkeCustomReservedCPU)
        then Returns (val, err) else computeGeneral mem cpus).
Proof.
  intros Hread. unfold computeReservedCPU.
  destruct (getReservedCPU_get k) as (val' & err' & Hget).
  rewrite Hget in Hread |- *. simpl in Hread. injection Hread as -> ->.
  destruct (cpus <=? 2); [|done].
  by destruct (bool_decide (err ≠ None) || String.eqb val gkeCustomReservedCPU).
Qed.

Lemma short_circuits_read cpus k val err :
  (getReservedCPU k).2 = Returns (val, err) →
  short_circuits cpus k ↔
  (cpus <=? 2) &&
    (bool_decide (err ≠ None) || String.eqb val gkeCustomReservedCPU) = true.
Proof.
  intros Hread. unfold short_circuits.
  rewrite andb_true_iff, orb_true_iff, Z.leb_le, bool_decide_eq_true,
    String.eqb_eq.
  split; [|by intros [? ?]; eauto].
  intros [Hle (val' & err' & Hread' & Hor)].
  rewrite Hread in Hread'. by injection Hread' as <- <-.
Qed.

Lemma computeReservedCPU_general mem cpus k :
  2 < cpus ∨ ¬ short_circuits cpus k →
  computeReservedCPU mem cpus k = (k, computeGeneral mem cpus).
Proof.
  intros Hns. destruct (getReservedCPU_get k) as (val & err & Hget).
  assert (Hread : (getReservedCPU k).2 = Returns (val, err)) by by rewrite Hget.
  rewrite (computeReservedCPU_read mem cpus k val err Hread).
  destruct (_ && _) eqn:Hc; [|done].
  apply (short_circuits_read cpus k val err Hread) in Hc.
  destruct Hns as [Hgt|Hns]; [|done]. destruct Hc as [Hle _]. lia.
Qed.

Lemma computeGeneral_no_error mem cpus val err :
  computeGeneral mem cpus = Returns (val, err) → err = None.
Proof.
  unfold computeGeneral. destruct (make_float64s mem cpus) as [totals|]; [|done].
  simpl. destruct (fill_totals cpus totals); [|done]. simpl.
  by intros [= _ <-].
Qed.

Lemma make_float64s_panics mem cpus :
  cpus < 0 ∨ max_float64s < cpus →
  make_float64s mem cpus = Panics PanicMakeSliceLen.
Proof.
  change max_float64s with 35184372088832. intros Hc.
  unfold make_float64s. change maxAlloc with 281474976710656.
  destruct (Z.ltb_spec cpus 0); [done|].
  destruct (Z.ltb_spec 281474976710656 (8 * cpus)); [done|lia].
Qed.

Lemma make_float64s_dies mem cpus :
  0 < cpus ≤ max_float64s → mem < 8 * cpus →
  make_float64s mem cpus = Panics FatalOutOfMemory.
Proof.
  change max_float64s with 35184372088832. intros Hc Hmem.
  unfold make_float64s. change maxAlloc with 281474976710656.
  destruct (Z.ltb_spec cpus 0); [lia|].
  destruct (Z.ltb_spec 281474976710656 (8 * cpus)); [lia|].
  destruct (Z.ltb_spec 0 cpus); [|lia].
  by destruct (Z.ltb_spec mem (8 * cpus)); [|lia].
Qed.
End read_facts.

(** The read of [kubeReserved.cpu], on a document that has the field. *)
Lemma getReservedCPU_field k m m' s :
  config k = Some m →
  m !! KStr kubeReservedField = Some (VMap (Some m')) →
  m' !! KStr cpuField = Some (VStr s) →
  getReservedCPU k = (k, Returns (s, None)).
Proof.
  intros Hk Hm Hm'. destruct (getReservedCPU_get k) as (val & err & Hget).
  rewrite Hget. unfold getReservedCPU, getFieldAsString in Hget.
  rewrite getSubfield_walk in Hget. simpl in Hget.
  unfold map_index in Hget. rewrite Hk, Hm in Hget. simpl in Hget.
  rewrite Hm' in Hget. simpl in Hget. by injection Hget as _ <- <-.
Qed.

(** C1, as amended.  For every count from 0 on whose slice [make] can
    allocate (its 8 bytes per core are within [maxAlloc] and within the
    memory that the run time can obtain), when the special case does not
    return (in particular when the count is above 2), [computeReservedCPU]
    returns no error and the string "<n>m", n being the truncation of 60 for
    the first core + 10 for the second + 5 for each of the next two + 2.5
    for each further core; the sum is truncated once.  16 cores give "110m",
    8 give "90m", 32 give "150m", 64 give "230m".  When the special case
    does not return and the slice cannot be allocated, the call does not
    return: [make] panics on a negative count and on one beyond
    [maxAlloc], and otherwise the run time ends with "out of memory". *)
Theorem computeReservedCPU_formula :
  (∀ mem cpus k,
     0 ≤ cpus ≤ max_float64s → 8 * cpus ≤ mem →
     2 < cpus ∨ ¬ short_circuits cpus k →
     computeReservedCPU mem cpus k
       = (k, Returns (format_d (Qtrunc (reserved_milli cpus)) +:+ "m", None))) ∧
  (∀ mem k,
     8 * 64 ≤ mem →
     computeReservedCPU mem 16 k = (k, Returns ("110m", None)) ∧
     computeReservedCPU mem 8 k = (k, Returns ("90m", None)) ∧
     computeReservedCPU mem 32 k = (k, Returns ("150m", None)) ∧
     computeReservedCPU mem 64 k = (k, Returns ("230m", None))) ∧
  (∀ mem cpus k,
     2 < cpus ∨ ¬ short_circuits cpus k →
     (cpus < 0 ∨ max_float64s < cpus →
      computeReservedCPU mem cpus k = (k, Panics PanicMakeSliceLen)) ∧
     (0 < cpus ≤ max_float64s → mem < 8 * cpus →
      computeReservedCPU mem cpus k = (k, Panics FatalOutOfMemory))).
Proof.
  split; [|split].
  - intros mem cpus k Hc Hmem Hns.
    by rewrite computeReservedCPU_general, computeGeneral_formula.
  - intros mem k Hmem.
    rewrite !computeReservedCPU_general by (left; lia). unfold computeGeneral.
    rewrite !make_float64s_ok by (change max_float64s with 35184372088832; lia).
    by vm_compute.
  - intros mem cpus k Hns. rewrite computeReservedCPU_general by done.
    unfold computeGeneral. split.
    + intros Hc. by rewrite make_float64s_panics.
    + intros Hc Hmem. by rewrite make_float64s_dies.
Qed.

Lemma computeReservedCPU_formula_witness :
  computeReservedCPU (2 ^ 30) 6 basicYAML = (basicYAML, Returns ("85m", None)) ∧
  computeReservedCPU (2 ^ 30) 2 basicYAML = (basicYAML, Returns ("70m", None)) ∧
  computeReservedCPU (2 ^ 30) 64 basicYAML = (basicYAML, Returns ("230m", None)) ∧
  computeReservedCPU (2 ^ 30) (2 ^ 50) basicYAML
    = (basicYAML, Panics PanicMakeSliceLen) ∧
  computeReservedCPU (2 ^ 30) (2 ^ 40) basicYAML
    = (basicYAML, Panics FatalOutOfMemory).
Proof.
  split; [|split; [|split; [|split]]].
  - apply (proj1 computeReservedCPU_formula (2 ^ 30) 6 basicYAML).
    + by vm_compute.
    + by vm_compute.
    + left. lia.
  - apply (proj1 computeReservedCPU_formula (2 ^ 30) 2 basicYAML).
    + by vm_compute.
    + by vm_compute.
    + right. intros [_ (val & err & Hread & Hor)].
      vm_compute in Hread. injection Hread as <- <-.
      by destruct Hor.
  - apply (proj1 (proj2 computeReservedCPU_formula) (2 ^ 30) basicYAML).
    by vm_compute.
  - apply (proj2 (proj2 computeReservedCPU_formula) (2 ^ 30) (2 ^ 50) basicYAML).
    + left. lia.
    + right. by vm_compute.
  - apply (proj2 (proj2 computeReservedCPU_formula) (2 ^ 30) (2 ^ 40) basicYAML).
    + left. lia.
    + by vm_compute.
    + by vm_compute.
Defined.

(** C1 as stated fails, also with all of the address space of the process
    (2^47 bytes) for the slice: a count above 2 that [make] refuses, a count
    above 2 that [make] accepts but that no memory holds, and a negative
    count on a document whose value is not the special one. *)
Lemma computeReservedCPU_formula_counterexample :
  2 < 2 ^ 62 ≤ max_int64 ∧
  computeReservedCPU (2 ^ 47) (2 ^ 62) basicYAML
    = (basicYAML, Panics PanicMakeSliceLen) ∧
  computeReservedCPU (2 ^ 47) (2 ^ 45) basicYAML
    = (basicYAML, Panics FatalOutOfMemory) ∧
  getReservedCPU basicYAML = (basicYAML, Returns ("0m", None)) ∧
  computeReservedCPU (2 ^ 47) (-1) basicYAML
    = (basicYAML, Panics PanicMakeSliceLen).
Proof. by vm_compute. Qed.

(** C2.  With a count of at most 2, a document whose [kubeReserved.cpu] reads
    as "1060m" (a map under [kubeReserved] that binds [cpu] to that string)
    gets "1060m" back with no error, and a failure of the read is returned
    as it is. *)
Theorem computeReservedCPU_special_case mem cpus k :
  cpus ≤ 2 →
  ((getReservedCPU k).2 = Returns (gkeCustomReservedCPU, None) →
   computeReservedCPU mem cpus k = (k, Returns (gkeCustomReservedCPU, None))) ∧
  (∀ m m',
     config k = Some m →
     m !! KStr kubeReservedField = Some (VMap (Some m')) →
     m' !! KStr cpuField = Some (VStr gkeCustomReservedCPU) →
     computeReservedCPU mem cpus k = (k, Returns (gkeCustomReservedCPU, None))) ∧
  (∀ val err,
     (getReservedCPU k).2 = Returns (val, Some err) →
     computeReservedCPU mem cpus k = (k, Returns (val, Some err))).
Proof.
  intros Hle.
  assert (Hspecial : (getReservedCPU k).2 = Returns (gkeCustomReservedCPU, None) →
    computeReservedCPU mem cpus k = (k, Returns (gkeCustomReservedCPU, None))).
  { intros Hread. rewrite (computeReservedCPU_read _ _ _ _ _ Hread).
    destruct (Z.leb_spec cpus 2); [done|lia]. }
  split; [done|]. split.
  - intros m m' Hk Hm Hm'. apply Hspecial.
    by rewrite (getReservedCPU_field k m m' gkeCustomReservedCPU).
  - intros val err Hread. rewrite (computeReservedCPU_read _ _ _ _ _ Hread).
    destruct (Z.leb_spec cpus 2); [done|lia].
Qed.

Lemma computeReservedCPU_special_case_witness :
  computeReservedCPU (2 ^ 30) 2 specialYAML = (specialYAML, Returns ("1060m", None)) ∧
  computeReservedCPU (2 ^ 30) (-1) emptyYAML
    = (emptyYAML, Returns ("", Some (ErrNoField "kubeReserved" (Some ∅)))).
Proof.
  split.
  - apply (proj1 (computeReservedCPU_special_case (2 ^ 30) 2 specialYAML ltac:(lia))).
    reflexivity.
  - apply (proj2 (proj2 (computeReservedCPU_special_case (2 ^ 30) (-1) emptyYAML
                           ltac:(lia)))).
    reflexivity.
Defined.

(** C4, as amended.  With a count of 0, a document whose [kubeReserved.cpu]
    reads as a string other than "1060m" gets "0m". *)
Theorem computeReservedCPU_zero mem k val :
  (getReservedCPU k).2 = Returns (val, None) →
  val ≠ gkeCustomReservedCPU →
  computeReservedCPU mem 0 k = (k, Returns ("0m", None)).
Proof.
  intros Hread Hval. rewrite (computeReservedCPU_read _ _ _ _ _ Hread).
  destruct (String.eqb_spec val gkeCustomReservedCPU); done.
Qed.

Lemma computeReservedCPU_zero_witness :
  computeReservedCPU (2 ^ 30) 0 basicYAML = (basicYAML, Returns ("0m", None)).
Proof.
  apply (computeReservedCPU_zero (2 ^ 30) basicYAML "0m"); [reflexivity|discriminate].
Defined.

(** C4 as stated fails: on the empty document the read fails and its error is
    returned, and on the document with "1060m" that value is. *)
Lemma computeReservedCPU_zero_counterexample :
  computeReservedCPU (2 ^ 30) 0 emptyYAML
    = (emptyYAML, Returns ("", Some (ErrNoField "kubeReserved" (Some ∅)))) ∧
  computeReservedCPU (2 ^ 30) 0 specialYAML = (specialYAML, Returns ("1060m", None)).
Proof. by vm_compute. Qed.

(** C5.  On a document that binds [kubeReserved] to anything but a map,
    [setReservedCPU] returns a PathError and leaves the document as it was;
    and [setField] returns a PathError, with the document as it was,
    whenever a node on the way to the last field exists and is not a map. *)
Theorem setField_fails_below_non_map :
  (∀ k m x reserved,
     config k = Some m →
     m !! KStr kubeReservedField = Some x →
     (∀ r, x ≠ VMap r) →
     setReservedCPU reserved k = (k, Returns (Some (ErrNotInResult cpuField x)))
     ∧ kind_of (ErrNotInResult cpuField x) = PathError) ∧
  (∀ k path field rest x val,
     getSubfield path true k = (k, Returns (x, None)) →
     (∀ r, x ≠ VMap r) →
     ∃ err, setField (path ++ field :: rest) val k = (k, Returns (Some err))
            ∧ kind_of err = PathError).
Proof.
  split.
  - intros k m x reserved Hk Hm Hx. split; [|done].
    apply (setField_non_map_parent [kubeReservedField] cpuField); [|done].
    rewrite getSubfield_walk; simpl. unfold map_index. rewrite Hk, Hm; simpl.
    rewrite insert_id by done. by rewrite <- Hk, kubeconfig_eta.
  - intros k path field rest x val Hget Hx.
    destruct (decide (rest = [])) as [->|Hrest].
    + eexists. split; [by apply setField_non_map_parent|done].
    + eexists. split; [by apply setField_non_map_above|done].
Qed.

Lemma setField_fails_below_non_map_witness :
  setReservedCPU "50m" notAMap
    = (notAMap, Returns (Some (ErrNotInResult cpuField (VStr "NotAMap"))))
  ∧ ∃ err, setField (["kubeReserved"] ++ "cpu" :: ["limit"]) "50m" notAMap
             = (notAMap, Returns (Some err)) ∧ kind_of err = PathError.
Proof.
  split.
  - apply (proj1 setField_fails_below_non_map notAMap
             {[ KStr "kubeReserved" := VStr "NotAMap" ]} (VStr "NotAMap") "50m");
      [reflexivity | reflexivity | discriminate].
  - apply (proj2 setField_fails_below_non_map notAMap ["kubeReserved"] "cpu"
             ["limit"] (VStr "NotAMap") "50m"); [reflexivity | discriminate].
Defined.

(** C6, as amended.  When [setField] returns no error, reading the same path
    with [getFieldAsString] returns the value that was set. *)
Theorem getFieldAsString_after_setField fields val k k' :
  setField fields val k = (k', Returns None) →
  getFieldAsString fields k' = (k', Returns (val, None)).
Proof.
  destruct (decide (fields = [])) as [->|Hne]; [done|].
  destruct (fields_snoc _ Hne) as (path & field & ->).
  rewrite setField_snoc.
  destruct (getSubfield path false k) as [k1 out] eqn:Hg.
  apply getSubfield_set_root in Hg.
  destruct out as [[result [e|]]|p]; [done| |done].
  assert_map result as [m|] else (done).
  intros [= <-].
  destruct (assign_at_map_root path (KStr field) (VStr val) (config k1)) as [r' Hr'].
  rewrite Hr'; simpl.
  unfold getFieldAsString. rewrite getSubfield_walk; simpl.
  pose proof (walk_assign_read _ field val _ _ _ Hg) as Hread.
  rewrite Hr' in Hread.
  destruct (walk_get (path ++ [field]) (VMap r')) as (v & err & Hw).
  rewrite Hw in Hread |- *. simpl in *. by injection Hread as -> ->.
Qed.

Lemma getFieldAsString_after_setField_witness :
  getFieldAsString ["a"; "b"; "c"] (setField ["a"; "b"; "c"] "50m" emptyYAML).1
    = ((setField ["a"; "b"; "c"] "50m" emptyYAML).1, Returns ("50m", None)).
Proof.
  apply (getFieldAsString_after_setField ["a"; "b"; "c"] "50m" emptyYAML).
  reflexivity.
Defined.

(** C6 as stated fails: below a node that is not a map [setField] returns an
    error and writes nothing, and the read fails afterwards; on the empty
    path [setField] panics. *)
Lemma getFieldAsString_after_setField_counterexample :
  setField ["kubeReserved"; "cpu"] "50m" notAMap
    = (notAMap, Returns (Some (ErrNotInResult "cpu" (VStr "NotAMap")))) ∧
  getFieldAsString ["kubeReserved"; "cpu"]
      (setField ["kubeReserved"; "cpu"] "50m" notAMap).1
    = (notAMap, Returns ("", Some (ErrNotAMap (VStr "NotAMap") "cpu"))) ∧
  setField [] "50m" basicYAML = (basicYAML, Panics PanicSliceBounds).
Proof. by vm_compute. Qed.

(** C7.  The reads leave the document as it is: [getSubfield] in get mode,
    [getFieldAsString] and [computeReservedCPU] return the receiver
    unchanged, whatever they return. *)
Theorem reads_do_not_mutate k :
  (∀ fields, (getSubfield fields true k).1 = k ∧
             (getFieldAsString fields k).1 = k) ∧
  (∀ mem cpus, (computeReservedCPU mem cpus k).1 = k).
Proof.
  split.
  - intros fields. split.
    + by destruct (getSubfield_get fields k) as (v & err & ->).
    + by destruct (getFieldAsString_get fields k) as (v & err & ->).
  - intros mem cpus. destruct (getReservedCPU_get k) as (val & err & Hget).
    rewrite (computeReservedCPU_read mem cpus k val err); [done|by rewrite Hget].
Qed.

(** C8.  Above 2 CPUs, [computeReservedCPU] returns no error and gives the
    same outcome on any two documents. *)
Theorem computeReservedCPU_ignores_document mem cpus k1 k2 :
  2 < cpus →
  (computeReservedCPU mem cpus k1).2 = (computeReservedCPU mem cpus k2).2 ∧
  (∀ val err, (computeReservedCPU mem cpus k1).2 = Returns (val, err) → err = None).
Proof.
  intros Hgt. unfold computeReservedCPU.
  destruct (Z.leb_spec cpus 2); [lia|]. split; [done|].
  intros val err. apply computeGeneral_no_error.
Qed.

Lemma computeReservedCPU_ignores_document_witness :
  (computeReservedCPU (2 ^ 30) 16 basicYAML).2 = (computeReservedCPU (2 ^ 30) 16 notAMap).2 ∧
  (∀ val err, (computeReservedCPU (2 ^ 30) 16 basicYAML).2 = Returns (val, err) → err = None).
Proof.
  apply (computeReservedCPU_ignores_document (2 ^ 30) 16 basicYAML notAMap). lia.
Defined.

(** C9.  A [setField] that returns an error leaves the document as it was:
    no map made on the way stays behind.  For once the traversal has made a
    map, it goes on from a fresh empty map, makes every further one and
    cannot fail. *)
Theorem setField_atomic_on_error :
  (∀ fields val k k1 err,
     setField fields val k = (k1, Returns (Some err)) → k1 = k) ∧
  (∀ fields, ∃ node,
     walk fields false (VMap (Some ∅)) = (node, Returns (VMap (Some ∅), None))).
Proof.
  split; [|apply walk_set_fresh].
  intros fields val k k1 err.
  destruct (decide (fields = [])) as [->|Hne]; [done|].
  destruct (fields_snoc _ Hne) as (path & field & ->).
  rewrite setField_snoc.
  destruct (getSubfield path false k) as [k' out] eqn:Hg.
  destruct out as [[result [e|]]|p]; [| |done].
  - intros [= <- _]. by eapply getSubfield_unchanged.
  - assert_map result as [m|] else (done);
      intros [= <- _]; by eapply getSubfield_unchanged.
Qed.

Lemma setField_atomic_on_error_witness :
  (setField ["kubeReserved"; "cpu"; "limit"] "50m" basicYAML).1 = basicYAML.
Proof.
  apply (proj1 setField_atomic_on_error
           ["kubeReserved"; "cpu"; "limit"] "50m" basicYAML _
           (ErrNotInResult "limit" (VStr "0m"))).
  reflexivity.
Defined.

(** C10, as amended.  For a count from 0 on whose slice [make] can allocate
    (its 8 bytes per core are within [maxAlloc] and within the memory that
    the run time can obtain), [computeReservedCPU] returns on every
    document: every store to the slice is in range and nothing panics.  For
    any other count it returns only when the special case returns first;
    otherwise [make] panics on a negative count and on one beyond
    [maxAlloc], and on a count in between the run time ends with "out of
    memory". *)
Theorem computeReservedCPU_total mem cpus k :
  (0 ≤ cpus ≤ max_float64s → 8 * cpus ≤ mem →
   ∃ r, (computeReservedCPU mem cpus k).2 = Returns r) ∧
  (max_float64s < cpus →
   (computeReservedCPU mem cpus k).2 = Panics PanicMakeSliceLen) ∧
  (cpus < 0 →
   (short_circuits cpus k ∧
    ∃ r, (computeReservedCPU mem cpus k).2 = Returns r) ∨
   (¬ short_circuits cpus k ∧
    (computeReservedCPU mem cpus k).2 = Panics PanicMakeSliceLen)) ∧
  (0 < cpus ≤ max_float64s → mem < 8 * cpus →
   (short_circuits cpus k ∧
    ∃ r, (computeReservedCPU mem cpus k).2 = Returns r) ∨
   (¬ short_circuits cpus k ∧
    (computeReservedCPU mem cpus k).2 = Panics FatalOutOfMemory)).
Proof.
  destruct (getReservedCPU_get k) as (val & err & Hget).
  assert (Hread : (getReservedCPU k).2 = Returns (val, err)) by by rewrite Hget.
  pose proof (short_circuits_read cpus k val err Hread) as Hsc.
  split; [|split; [|split]].
  - intros Hc Hmem.
    rewrite (computeReservedCPU_read mem cpus k val err Hread). simpl.
    destruct (_ && _); [by eexists|].
    rewrite computeGeneral_formula by done. by eexists.
  - intros Hc. rewrite computeReservedCPU_general.
    + unfold computeGeneral. rewrite make_float64s_panics; [done|by right].
    + left. change max_float64s with 35184372088832 in Hc. lia.
  - intros Hc. rewrite (computeReservedCPU_read mem cpus k val err Hread). simpl.
    destruct (_ && _).
    + left. split; [by apply Hsc|by eexists].
    + right. split; [by rewrite Hsc|].
      unfold computeGeneral. rewrite make_float64s_panics; [done|by left].
  - intros Hc Hmem.
    rewrite (computeReservedCPU_read mem cpus k val err Hread). simpl.
    destruct (_ && _).
    + left. split; [by apply Hsc|by eexists].
    + right. split; [by rewrite Hsc|].
      unfold computeGeneral. by rewrite make_float64s_dies.
Qed.

Lemma computeReservedCPU_total_witness :
  (∃ r, (computeReservedCPU (2 ^ 30) 3 notAMap).2 = Returns r) ∧
  (computeReservedCPU (2 ^ 30) (2 ^ 50) notAMap).2 = Panics PanicMakeSliceLen ∧
  ((short_circuits (-1) notAMap ∧
    ∃ r, (computeReservedCPU (2 ^ 30) (-1) notAMap).2 = Returns r) ∨
   (¬ short_circuits (-1) notAMap ∧
    (computeReservedCPU (2 ^ 30) (-1) notAMap).2 = Panics PanicMakeSliceLen)) ∧
  ((short_circuits (2 ^ 40) notAMap ∧
    ∃ r, (computeReservedCPU (2 ^ 30) (2 ^ 40) notAMap).2 = Returns r) ∨
   (¬ short_circuits (2 ^ 40) notAMap ∧
    (computeReservedCPU (2 ^ 30) (2 ^ 40) notAMap).2 = Panics FatalOutOfMemory)).
Proof.
  split; [|split; [|split]].
  - apply (proj1 (computeReservedCPU_total (2 ^ 30) 3 notAMap));
      by vm_compute.
  - apply (proj1 (proj2 (computeReservedCPU_total (2 ^ 30) (2 ^ 50) notAMap))).
    by vm_compute.
  - apply (proj1 (proj2 (proj2 (computeReservedCPU_total (2 ^ 30) (-1) notAMap)))).
    lia.
  - apply (proj2 (proj2 (proj2
             (computeReservedCPU_total (2 ^ 30) (2 ^ 40) notAMap))));
      by vm_compute.
Defined.

(** C10 as stated fails, also with all of the address space of the process
    (2^47 bytes) for the slice: a count that is not negative and that [make]
    refuses, and one that [make] accepts but that no memory holds. *)
Lemma computeReservedCPU_total_counterexample :
  0 ≤ max_int64 ∧
  computeReservedCPU (2 ^ 47) max_int64 emptyYAML
    = (emptyYAML, Panics PanicMakeSliceLen) ∧
  0 ≤ 2 ^ 45 ∧
  computeReservedCPU (2 ^ 47) (2 ^ 45) emptyYAML
    = (emptyYAML, Panics FatalOutOfMemory).
Proof. by vm_compute. Qed.

(** * More properties of the code *)

(** ** Traversals, continued *)

Section more_walk_facts.
Implicit Types (fields path : list string) (result node : value) (r : gomap).

(** A get traversal of a concatenated path goes on from where the first
    part ends. *)
Lemma walk_get_app path rest node node' x :
  walk path true node = (node', Returns (x, None)) →
  walk (path ++ rest) true node = (node, (walk rest true x).2).
Proof.
  revert node node'. induction path as [|f path IH]; intros node node'; simpl.
  { intros [= -> ->]. by destruct (walk_get rest x) as (v & err & ->). }
  assert_map node as r else (done).
  destruct (map_index r (KStr f)) as [child|] eqn:Hidx; [|done].
  destruct (walk path true child) as [child' out] eqn:Hw.
  intros [= <- ->]. rewrite (IH _ _ Hw). by rewrite insert_child_id.
Qed.

(** The cause of an error of a set traversal: a node on the way that is
    there and is not a map. *)
Lemma walk_set_error fields node node' v err :
  walk fields false node = (node', Returns (v, Some err)) →
  ∃ path field rest x,
    fields = path ++ field :: rest ∧
    walk path true node = (node, Returns (x, None)) ∧
    (∀ r, x ≠ VMap r) ∧ err = ErrNotAMap x field.
Proof.
  revert node node'. induction fields as [|f fields IH]; intros node node'; simpl.
  { done. }
  destruct node as [| | | | | |r] eqn:Hnode;
    try (intros [= <- <- <-]; by exists [], f, fields, node; subst node).
  destruct (map_index r (KStr f)) as [child|] eqn:Hidx.
  - destruct (walk fields false child) as [child' out] eqn:Hw.
    intros [= <- ->].
    destruct (IH _ _ Hw) as (path & field & rest & x & -> & Hp & Hx & ->).
    exists (f :: path), field, rest, x. simpl. rewrite Hidx, Hp.
    by rewrite insert_child_id.
  - destruct r as [m|]; [|done].
    destruct (walk_set_fresh fields) as [n Hn]. rewrite Hn. done.
Qed.
End more_walk_facts.

Section frame_facts.
Implicit Types (fields path c q : list string) (result node : value) (r : gomap).

(** A set traversal leaves what a get reads along a path that branches off
    its own. *)
Lemma walk_set_frame c a q b rest node node1 out x :
  a ≠ b →
  walk (c ++ b :: rest) false node = (node1, out) →
  walk (c ++ a :: q) true node = (node, Returns (x, None)) →
  (walk (c ++ a :: q) true node1).2 = Returns (x, None).
Proof.
  intros Hab. revert node node1.
  induction c as [|f c IH]; intros node node1; simpl.
  - assert_map node as [m|] else (done); try done. simpl.
    destruct (m !! KStr a) as [ca|] eqn:Ha; [|done].
    destruct (walk q true ca) as [ca' oa] eqn:Hq.
    destruct (m !! KStr b) as [cb|] eqn:Hb.
    + destruct (walk rest false cb) as [cb' ob]. intros [= <- <-] [= _ ->].
      simpl. rewrite lookup_insert_ne, Ha, Hq by congruence. done.
    + destruct (walk rest false (VMap (Some ∅))) as [cb' ob].
      intros [= <- <-] [= _ ->].
      simpl. rewrite lookup_insert_ne, Ha, Hq by congruence. done.
  - assert_map node as [m|] else (done); try done. simpl.
    destruct (m !! KStr f) as [child|] eqn:Hf.
    + destruct (walk_get (c ++ a :: q) child) as (v & e & Hg). rewrite Hg.
      destruct (walk (c ++ b :: rest) false child) as [child1 o1] eqn:Hs.
      intros [= <- <-] [= _ -> ->]. simpl. rewrite lookup_insert_eq.
      specialize (IH _ _ Hs Hg).
      by destruct (walk (c ++ a :: q) true child1).
    + done.
Qed.

(** So does the assignment at the end of the path. *)
Lemma assign_at_frame c a q b rest path field v node x :
  a ≠ b →
  path ++ [field] = c ++ b :: rest →
  walk (c ++ a :: q) true node = (node, Returns (x, None)) →
  (walk (c ++ a :: q) true (assign_at path (KStr field) v node)).2
    = Returns (x, None).
Proof.
  intros Hab. revert path node.
  induction c as [|f c IH]; intros path node Hpath; simpl.
  - assert_map node as [m|] else (done); try done. simpl.
    destruct (m !! KStr a) as [ca|] eqn:Ha; [|done].
    destruct (walk q true ca) as [ca' oa] eqn:Hq. intros [= _ ->].
    destruct path as [|p path]; simpl in *.
    + injection Hpath as -> _. simpl.
      rewrite lookup_insert_ne, Ha, Hq by congruence. done.
    + injection Hpath as -> _.
      destruct (m !! KStr b); simpl.
      * rewrite lookup_insert_ne, Ha, Hq by congruence. done.
      * rewrite Ha, Hq. done.
  - assert_map node as [m|] else (done); try done. simpl.
    destruct (m !! KStr f) as [child|] eqn:Hf; [|done].
    destruct (walk_get (c ++ a :: q) child) as (v' & e & Hg). rewrite Hg.
    intros [= _ -> ->].
    destruct path as [|p path]; simpl in *.
    { destruct c; discriminate. }
    injection Hpath as -> Hpath. rewrite Hf. simpl.
    rewrite lookup_insert_eq. specialize (IH _ _ Hpath Hg).
    by destruct (walk (c ++ a :: q) true _).
Qed.
End frame_facts.

Section set_path_facts.
Implicit Types (fields path : list string) (k : kubeconfig) (node v : value).

Lemma set_path_nested fields v :
  set_path fields v (VMap (Some ∅)) = nested fields v.
Proof.
  induction fields as [|f fields IH]; [done|]. simpl.
  rewrite lookup_empty. simpl. by rewrite IH, insert_empty.
Qed.

(** The set traversal and the assignment after it, together. *)
Lemma walk_assign_set_path path field v node node1 m :
  walk path false node = (node1, Returns (VMap (Some m), None)) →
  assign_at path (KStr field) v node1 = set_path (path ++ [field]) v node.
Proof.
  revert node node1. induction path as [|f path IH]; intros node node1; simpl.
  { by intros [= -> ->]. }
  assert_map node as r else (done).
  destruct (map_index r (KStr f)) as [child|] eqn:Hidx.
  - destruct r as [m0|]; [simpl in *|done].
    destruct (walk path false child) as [child1 out] eqn:Hw.
    intros [= <- ->]. simpl. rewrite lookup_insert_eq, insert_insert_eq, Hidx.
    simpl. by rewrite (IH _ _ Hw).
  - destruct r as [m0|]; [simpl in *|done].
    destruct (walk path false (VMap (Some ∅))) as [child1 out] eqn:Hw.
    intros [= <- ->]. simpl. rewrite lookup_insert_eq, insert_insert_eq, Hidx.
    simpl. by rewrite (IH _ _ Hw).
Qed.

Lemma set_path_map_root fields v r :
  fields ≠ [] → ∃ r', set_path fields v (VMap r) = VMap r'.
Proof. destruct fields, r; try done; by eexists. Qed.

Lemma set_path_twice fields v1 v2 node :
  set_path fields v2 (set_path fields v1 node) = set_path fields v2 node.
Proof.
  revert node. induction fields as [|f fields IH]; intros node; [done|]. simpl.
  assert_map node as [m|] else (done); try done. simpl.
  rewrite lookup_insert_eq, insert_insert_eq. simpl. by rewrite IH.
Qed.

Lemma getSubfield_of_walk fields get k out :
  walk fields get (VMap (config k)) = (VMap (config k), out) →
  getSubfield fields get k = (k, out).
Proof.
  intros Hw. rewrite getSubfield_walk, Hw. simpl. by rewrite kubeconfig_eta.
Qed.

(** What a successful [setField] is made of. *)
Lemma setField_success path field val k k' :
  setField (path ++ [field]) val k = (k', Returns None) →
  ∃ k1 m, getSubfield path false k = (k1, Returns (VMap (Some m), None)) ∧
          VMap (config k')
            = assign_at path (KStr field) (VStr val) (VMap (config k1)).
Proof.
  rewrite setField_snoc.
  destruct (getSubfield path false k) as [k1 out] eqn:Hg.
  destruct out as [[result [e|]]|p]; [done| |done].
  assert_map result as [m|] else (done); try done.
  intros [= <-]. exists k1, m. split; [done|]. simpl.
  by destruct (assign_at_map_root path (KStr field) (VStr val) (config k1)) as [r' ->].
Qed.

Lemma setField_resolved path field val k m :
  getSubfield path true k = (k, Returns (VMap (Some m), None)) →
  setField (path ++ [field]) val k
    = ({| config := as_map (config k)
            (assign_at path (KStr field) (VStr val) (VMap (config k))) |},
       Returns None).
Proof.
  intros Hget. rewrite setField_snoc.
  apply getSubfield_true_resolves, walk_get_set in Hget.
  by rewrite (getSubfield_of_walk _ _ _ _ Hget).
Qed.
End set_path_facts.

Section setField_facts.
Implicit Types (fields path : list string) (k : kubeconfig) (x : value).

Lemma walk_get_prefix path rest node node' x :
  walk (path ++ rest) true node = (node', Returns (x, None)) →
  ∃ y, walk path true node = (node, Returns (y, None)).
Proof.
  revert node node'. induction path as [|f path IH]; intros node node'; simpl.
  { by eexists. }
  assert_map node as r else (done).
  destruct (map_index r (KStr f)) as [child|] eqn:Hidx; [|done].
  destruct (walk (path ++ rest) true child) as [child' out] eqn:Hw.
  intros [= <- ->]. destruct (IH _ _ Hw) as [y ->].
  rewrite insert_child_id by done. by eexists.
Qed.

Lemma setField_set_path_ok path field val k k1 m :
  getSubfield path false k = (k1, Returns (VMap (Some m), None)) →
  setField (path ++ [field]) val k
    = ({| config := as_map (config k)
            (set_path (path ++ [field]) (VStr val) (VMap (config k))) |},
       Returns None).
Proof.
  intros Hg. rewrite setField_snoc, Hg.
  apply getSubfield_set_root in Hg.
  rewrite (walk_assign_set_path _ field (VStr val) _ _ _ Hg).
  by destruct (set_path_map_root (path ++ [field]) (VStr val) (config k))
    as [r' ->]; [destruct path|].
Qed.
(** The document after a [setField] that succeeds. *)
Lemma setField_result fields val k k' :
  setField fields val k = (k', Returns None) →
  VMap (config k') = set_path fields (VStr val) (VMap (config k)).
Proof.
  destruct (decide (fields = [])) as [->|Hne]; [done|].
  destruct (fields_snoc _ Hne) as (path & field & ->).
  intros Hset. destruct (setField_success _ _ _ _ _ Hset) as (k1 & m & Hg & Hk').
  apply getSubfield_set_root in Hg.
  rewrite Hk'. apply (walk_assign_set_path _ _ _ _ _ _ Hg).
Qed.
End setField_facts.

Lemma set_path_commute c a q b rest v1 v2 node :
  a ≠ b →
  set_path (c ++ a :: q) v1 (set_path (c ++ b :: rest) v2 node)
    = set_path (c ++ b :: rest) v2 (set_path (c ++ a :: q) v1 node).
Proof.
  intros Hab. revert node. induction c as [|f c IH]; intros node; simpl.
  - assert_map node as [m|] else (done); try done. simpl.
    rewrite !lookup_insert_ne by congruence.
    by rewrite insert_insert_ne by congruence.
  - assert_map node as [m|] else (done); try done. simpl.
    rewrite !lookup_insert_eq, !insert_insert_eq. simpl. by rewrite IH.
Qed.

Lemma getFieldAsString_set fields val k k' :
  setField fields val k = (k', Returns None) →
  getFieldAsString fields k' = (k', Returns (val, None)).
Proof.
  destruct (decide (fields = [])) as [->|Hne]; [done|].
  destruct (fields_snoc _ Hne) as (path & field & ->). intros Hset.
  destruct (setField_success _ _ _ _ _ Hset) as (k1 & m & Hg & Hk').
  apply getSubfield_set_root in Hg.
  pose proof (walk_assign_read _ field val _ _ _ Hg) as Hread.
  rewrite <- Hk' in Hread.
  unfold getFieldAsString. rewrite getSubfield_walk.
  destruct (walk_get (path ++ [field]) (VMap (config k'))) as (v & e & Hw).
  rewrite Hw in Hread |- *. simpl in *. injection Hread as -> ->.
  by rewrite kubeconfig_eta.
Qed.

Lemma HasSuffix_append s t : HasSuffix (s +:+ t) t = true.
Proof.
  unfold HasSuffix. rewrite length_append.
  replace (String.length s + String.length t - String.length t)%nat
    with (String.length s) by lia.
  rewrite substring_append_r, String.eqb_refl.
  by destruct (Nat.leb_spec (String.length t) (String.length s + String.length t));
    [|lia].
Qed.

(** ** Reading *)

(** X1.  A get along a concatenated path is the get along the first part
    followed by the get along the rest, from the map that the first part
    leads to. *)
Theorem getSubfield_app path rest k r :
  getSubfield path true k = (k, Returns (VMap r, None)) →
  getSubfield (path ++ rest) true k
    = (k, (getSubfield rest true {| config := r |}).2).
Proof.
  intros Hget. apply getSubfield_true_resolves in Hget.
  apply getSubfield_of_walk. rewrite (walk_get_app _ rest _ _ _ Hget).
  by rewrite (getSubfield_walk rest true {| config := r |}).
Qed.

Lemma getSubfield_app_witness :
  getSubfield (["kubeReserved"] ++ ["memory"]) true basicYAML
    = (basicYAML,
       (getSubfield ["memory"] true
          {| config := Some {[ KStr "cpu" := VStr "0m";
                               KStr "ephemeral-storage" := VStr "41Gi";
                               KStr "memory" := VStr "1019Mi" ]} |}).2).
Proof.
  apply (getSubfield_app ["kubeReserved"] ["memory"] basicYAML). reflexivity.
Defined.

(** X2.  What [getReservedCPU] returns, by the shape of the document: no
    [kubeReserved]: "field does not exist"; [kubeReserved] not a map: "is
    not a map on field cpu"; no [cpu] in it: "field does not exist"; [cpu]
    not a string: "not string" (a TypeError); [cpu] a string: that
    string.  The document is unchanged in every case. *)
Theorem getReservedCPU_cases k :
  (map_index (config k) (KStr kubeReservedField) = None →
   getReservedCPU k
     = (k, Returns ("", Some (ErrNoField kubeReservedField (config k))))) ∧
  (∀ x, map_index (config k) (KStr kubeReservedField) = Some x →
        (∀ r, x ≠ VMap r) →
        getReservedCPU k = (k, Returns ("", Some (ErrNotAMap x cpuField)))) ∧
  (∀ r, map_index (config k) (KStr kubeReservedField) = Some (VMap r) →
        (map_index r (KStr cpuField) = None →
         getReservedCPU k = (k, Returns ("", Some (ErrNoField cpuField r)))) ∧
        (∀ x, map_index r (KStr cpuField) = Some x →
              (∀ s, x ≠ VStr s) →
              getReservedCPU k = (k, Returns ("", Some (ErrNotString x))) ∧
              kind_of (ErrNotString x) = TypeError) ∧
        (∀ s, map_index r (KStr cpuField) = Some (VStr s) →
              getReservedCPU k = (k, Returns (s, None)))).
Proof.
  assert (Hout : ∀ out, (getReservedCPU k).2 = out → getReservedCPU k = (k, out)).
  { intros out <-. by destruct (getReservedCPU_get k) as (v & e & ->). }
  unfold getReservedCPU, getFieldAsString in *.
  rewrite getSubfield_walk in *. simpl in *.
  split; [|split].
  - intros Hm. apply Hout. by rewrite Hm.
  - intros x Hm Hx. apply Hout. rewrite Hm. simpl.
    destruct x as [| | | | | |r]; try done. by destruct (Hx r).
  - intros r Hm. split; [|split].
    + intros Hc. apply Hout. rewrite Hm. simpl. by rewrite Hc.
    + intros x Hc Hx. split; [|done]. apply Hout. rewrite Hm. simpl.
      rewrite Hc. simpl. destruct x; try done. by destruct (Hx s).
    + intros s Hc. apply Hout. rewrite Hm. simpl. by rewrite Hc.
Qed.

Lemma getReservedCPU_cases_witness :
  getReservedCPU emptyYAML
    = (emptyYAML, Returns ("", Some (ErrNoField "kubeReserved" (Some ∅)))) ∧
  getReservedCPU notAMap
    = (notAMap, Returns ("", Some (ErrNotAMap (VStr "NotAMap") "cpu"))) ∧
  getReservedCPU intCPU
    = (intCPU, Returns ("", Some (ErrNotString (VInt 1)))) ∧
  getReservedCPU basicYAML = (basicYAML, Returns ("0m", None)).
Proof.
  split; [|split; [|split]].
  - apply (proj1 (getReservedCPU_cases emptyYAML)). reflexivity.
  - apply (proj1 (proj2 (getReservedCPU_cases notAMap)) (VStr "NotAMap"));
      [reflexivity|discriminate].
  - apply (proj1 (proj2 (proj2 (proj2 (getReservedCPU_cases intCPU))
                    (Some {[ KStr "cpu" := VInt 1 ]}) eq_refl)) (VInt 1));
      [reflexivity|discriminate].
  - apply (proj2 (proj2 (proj2 (proj2 (getReservedCPU_cases basicYAML))
                    (Some {[ KStr "cpu" := VStr "0m";
                             KStr "ephemeral-storage" := VStr "41Gi";
                             KStr "memory" := VStr "1019Mi" ]}) eq_refl)) "0m").
    reflexivity.
Defined.

(** X3.  A get that comes to a map without the next field fails on that
    field, whatever follows it on the path: [getSubfield] returns nil and
    the error that names the field and the map, [getFieldAsString] the empty
    string and the same error; the document is unchanged. *)
Theorem getSubfield_missing_field path field rest k r :
  getSubfield path true k = (k, Returns (VMap r, None)) →
  map_index r (KStr field) = None →
  getSubfield (path ++ field :: rest) true k
    = (k, Returns (VNil, Some (ErrNoField field r))) ∧
  getFieldAsString (path ++ field :: rest) k
    = (k, Returns ("", Some (ErrNoField field r))).
Proof.
  intros Hget Hidx.
  assert (getSubfield (path ++ field :: rest) true k
            = (k, Returns (VNil, Some (ErrNoField field r)))) as Hmiss.
  { apply getSubfield_true_resolves in Hget. apply getSubfield_of_walk.
    rewrite (walk_get_app _ (field :: rest) _ _ _ Hget). simpl.
    by rewrite Hidx. }
  split; [done|]. unfold getFieldAsString. by rewrite Hmiss.
Qed.

Lemma getSubfield_missing_field_witness :
  getSubfield (["kubeReserved"] ++ "gpu" :: ["limit"]) true basicYAML
    = (basicYAML, Returns (VNil, Some (ErrNoField "gpu"
         (Some {[ KStr "cpu" := VStr "0m";
                  KStr "ephemeral-storage" := VStr "41Gi";
                  KStr "memory" := VStr "1019Mi" ]})))) ∧
  getFieldAsString (["kubeReserved"] ++ "gpu" :: ["limit"]) basicYAML
    = (basicYAML, Returns ("", Some (ErrNoField "gpu"
         (Some {[ KStr "cpu" := VStr "0m";
                  KStr "ephemeral-storage" := VStr "41Gi";
                  KStr "memory" := VStr "1019Mi" ]})))).
Proof.
  apply (getSubfield_missing_field ["kubeReserved"] "gpu" ["limit"] basicYAML);
    reflexivity.
Defined.

(** ** Writing *)

(** X4.  A [setField] that succeeds leaves the document that [set_path]
    describes: the value is put at the path, an absent key on the way gets
    a map of its own, and nothing else changes. *)
Theorem setField_set_path fields val k k' :
  setField fields val k = (k', Returns None) →
  fields ≠ [] ∧
  VMap (config k') = set_path fields (VStr val) (VMap (config k)) ∧
  setField fields val k
    = ({| config := as_map (config k)
            (set_path fields (VStr val) (VMap (config k))) |}, Returns None).
Proof.
  intros Hset. pose proof (setField_result _ _ _ _ Hset) as Hk'.
  split; [by intros ->|]. split; [done|].
  rewrite Hset, <- Hk'. simpl. by rewrite kubeconfig_eta.
Qed.

Lemma setField_set_path_witness :
  VMap (config (setField ["a"; "b"] "1" basicYAML).1)
    = set_path ["a"; "b"] (VStr "1") (VMap (config basicYAML)).
Proof.
  apply (setField_set_path ["a"; "b"] "1" basicYAML
           (setField ["a"; "b"] "1" basicYAML).1).
  reflexivity.
Defined.

(** X5.  [setField] makes the maps that are missing: on a document (not the
    nil map) that lacks the first field of the path, it succeeds and binds
    that field to the chain of new maps that ends in the value. *)
Theorem setField_makes_maps k m field rest val :
  config k = Some m →
  m !! KStr field = None →
  setField (field :: rest) val k
    = ({| config := Some (<[KStr field := nested rest (VStr val)]> m) |},
       Returns None).
Proof.
  intros Hk Hm.
  destruct (fields_snoc (field :: rest) ltac:(done)) as (path & f & Heq).
  assert (∃ k1 m1,
            getSubfield path false k = (k1, Returns (VMap (Some m1), None)))
    as (k1 & m1 & Hg).
  { rewrite getSubfield_walk.
    destruct path as [|p path]; simpl; rewrite Hk; [by eexists _, _|].
    injection Heq as <- _. simpl. rewrite Hm.
    destruct (walk_set_fresh path) as [node ->]. by eexists _, _. }
  rewrite Heq, (setField_set_path_ok _ _ _ _ _ _ Hg), <- Heq.
  simpl. rewrite Hk, Hm. simpl. by rewrite set_path_nested.
Qed.

Lemma setField_makes_maps_witness :
  setField ["a"; "b"; "c"] "1" emptyYAML
    = ({| config := Some {[ KStr "a" :=
            VMap (Some {[ KStr "b" := VMap (Some {[ KStr "c" := VStr "1" ]}) ]}) ]} |},
       Returns None).
Proof.
  apply (setField_makes_maps emptyYAML ∅ "a" ["b"; "c"] "1"); reflexivity.
Defined.

(** X6.  [setField] does not disturb what lies beside its path: a value
    that a get reads along a path that branches off the one that is set is
    read unchanged afterwards. *)
Theorem setField_frame c a q b rest val k k' x :
  a ≠ b →
  setField (c ++ b :: rest) val k = (k', Returns None) →
  getSubfield (c ++ a :: q) true k = (k, Returns (x, None)) →
  getSubfield (c ++ a :: q) true k' = (k', Returns (x, None)).
Proof.
  intros Hab Hset Hget.
  destruct (fields_snoc (c ++ b :: rest) ltac:(by destruct c))
    as (path & field & Heq).
  rewrite Heq in Hset.
  destruct (setField_success _ _ _ _ _ Hset) as (k1 & m & Hg & Hk').
  apply getSubfield_set_root in Hg. apply getSubfield_true_resolves in Hget.
  assert (Hread1 : walk (c ++ a :: q) true (VMap (config k1))
                     = (VMap (config k1), Returns (x, None))).
  { destruct (walk_get (c ++ a :: q) (VMap (config k1))) as (v & e & Hw).
    rewrite Hw. do 2 f_equal.
    destruct (decide (rest = [])) as [->|Hrest].
    - apply app_inj_tail in Heq as [-> ->].
      destruct (walk_get_prefix _ _ _ _ _ Hget) as [y Hy].
      rewrite (walk_get_set _ _ _ _ Hy) in Hg. injection Hg as Hkk _.
      rewrite <- Hkk, Hget in Hw. by injection Hw as <- <-.
    - destruct (fields_snoc _ Hrest) as (rest' & l & ->).
      replace (c ++ b :: rest' ++ [l]) with ((c ++ b :: rest') ++ [l]) in Heq
        by by rewrite <- app_assoc.
      apply app_inj_tail in Heq as [<- <-].
      pose proof (walk_set_frame _ _ _ _ _ _ _ _ _ Hab Hg Hget) as Hf.
      rewrite Hw in Hf. by injection Hf as <- <-. }
  apply getSubfield_of_walk. rewrite Hk'.
  pose proof (assign_at_frame _ _ _ _ _ _ _ (VStr val) _ _ Hab (eq_sym Heq) Hread1) as Hf.
  destruct (walk_get (c ++ a :: q)
              (assign_at path (KStr field) (VStr val) (VMap (config k1))))
    as (v & e & Hw).
  rewrite Hw in Hf |- *. simpl in Hf. by injection Hf as <- <-.
Qed.

Lemma setField_frame_witness :
  getSubfield ["kubeReserved"; "memory"] true (setReservedCPU "50m" basicYAML).1
    = ((setReservedCPU "50m" basicYAML).1, Returns (VStr "1019Mi", None)).
Proof.
  apply (setField_frame ["kubeReserved"] "memory" [] "cpu" [] "50m" basicYAML);
    [discriminate | reflexivity | reflexivity].
Defined.

(** X7.  The only cause of an error of [setField]: some node on the way to
    the last field is there and is not a map.  The error names that node;
    it is "field not in result" when the node is the parent of the last
    field and "failed to set field: ... is not a map" when it is higher
    up. *)
Theorem setField_error_cause fields val k k1 err :
  setField fields val k = (k1, Returns (Some err)) →
  ∃ path field rest x,
    fields = path ++ field :: rest ∧
    getSubfield path true k = (k, Returns (x, None)) ∧
    (∀ r, x ≠ VMap r) ∧
    err = (if decide (rest = []) then ErrNotInResult field x
           else ErrSetField (ErrNotAMap x field)).
Proof.
  destruct (decide (fields = [])) as [->|Hne]; [done|].
  destruct (fields_snoc _ Hne) as (p & last & ->).
  rewrite setField_snoc.
  destruct (getSubfield p false k) as [k' out] eqn:Hg.
  apply getSubfield_set_root in Hg.
  destruct out as [[result [e|]]|pn]; [| |done].
  - intros [= <- <-].
    destruct (walk_set_error _ _ _ _ _ Hg) as (path & field & rest & x & -> & Hp & Hx & ->).
    exists path, field, (rest ++ [last]), x.
    split; [by rewrite <- app_assoc|]. split; [by apply getSubfield_of_walk|].
    split; [done|]. by destruct rest.
  - intros Hres.
    assert (Hx : ∀ r, result ≠ VMap r).
    { intros [m|] ->; done. }
    assert (err = ErrNotInResult last result ∧ k1 = k') as [-> ->].
    { destruct result as [| | | | | |[m|]];
        first [done | by injection Hres as <- <-]. }
    assert (VMap (config k') = VMap (config k)) as Hk.
    { eapply walk_unchanged; [done|]. intros r [= ->]. by destruct (Hx r). }
    rewrite Hk in Hg.
    exists p, last, [], result. split; [done|].
    split; [|done]. apply getSubfield_of_walk.
    by apply (walk_set_result _ _ _ _ Hg).
Qed.

Lemma setField_error_cause_witness :
  ∃ path field rest x,
    ["kubeReserved"; "cpu"; "limit"] = path ++ field :: rest ∧
    getSubfield path true basicYAML = (basicYAML, Returns (x, None)) ∧
    (∀ r, x ≠ VMap r) ∧
    ErrNotInResult "limit" (VStr "0m")
      = (if decide (rest = []) then ErrNotInResult field x
         else ErrSetField (ErrNotAMap x field)).
Proof.
  apply (setField_error_cause ["kubeReserved"; "cpu"; "limit"] "50m" basicYAML
           basicYAML).
  reflexivity.
Defined.

(** X8.  The last write wins: after a [setField] that succeeded, setting the
    same path again succeeds and gives the document that setting the second
    value alone would give. *)
Theorem setField_last_write_wins fields v1 v2 k k1 :
  setField fields v1 k = (k1, Returns None) →
  setField fields v2 k1 = setField fields v2 k ∧
  (setField fields v2 k).2 = Returns None.
Proof.
  destruct (decide (fields = [])) as [->|Hne]; [done|].
  destruct (fields_snoc _ Hne) as (path & field & ->).
  intros Hset. pose proof (setField_result _ _ _ _ Hset) as Hk1.
  destruct (setField_success _ _ _ _ _ Hset) as (ka & m & Hg & Hka).
  rewrite (setField_set_path_ok _ _ v2 _ _ _ Hg). split; [|done].
  pose proof (getSubfield_set_root _ _ _ _ Hg) as Hw.
  pose proof (walk_then_assign _ (KStr field) (VStr v1) _ _ _ Hw) as Hr.
  rewrite <- Hka in Hr. apply walk_get_set, getSubfield_of_walk in Hr.
  rewrite (setField_set_path_ok _ _ v2 _ _ _ Hr), Hk1, set_path_twice.
  by destruct (set_path_map_root (path ++ [field]) (VStr v2) (config k))
    as [r' ->]; [destruct path|].
Qed.

Lemma setField_last_write_wins_witness :
  setField ["a"; "b"] "2" (setField ["a"; "b"] "1" basicYAML).1
    = setField ["a"; "b"] "2" basicYAML ∧
  (setField ["a"; "b"] "2" basicYAML).2 = Returns None.
Proof.
  apply (setField_last_write_wins ["a"; "b"] "1" "2" basicYAML). reflexivity.
Defined.

(** X9.  When the path before the last field leads to a map, [setField]
    succeeds and afterwards that path leads to the same map with the last
    field bound to the value: the other entries of the map are kept. *)
Theorem setField_updates_parent path field val k m :
  getSubfield path true k = (k, Returns (VMap (Some m), None)) →
  ∃ k', setField (path ++ [field]) val k = (k', Returns None) ∧
        getSubfield path true k'
          = (k', Returns (VMap (Some (<[KStr field := VStr val]> m)), None)).
Proof.
  intros Hget. rewrite (setField_resolved _ _ _ _ _ Hget).
  eexists. split; [done|].
  apply getSubfield_true_resolves, walk_get_set in Hget.
  pose proof (walk_then_assign _ (KStr field) (VStr val) _ _ _ Hget) as Hr.
  destruct (assign_at_map_root path (KStr field) (VStr val) (config k)) as [r' Hr'].
  rewrite Hr' in Hr |- *. simpl. by apply getSubfield_of_walk.
Qed.

Lemma setField_updates_parent_witness :
  ∃ k', setReservedCPU "50m" basicYAML = (k', Returns None) ∧
        getSubfield ["kubeReserved"] true k'
          = (k', Returns (VMap (Some (<[KStr "cpu" := VStr "50m"]>
               {[ KStr "cpu" := VStr "0m";
                  KStr "ephemeral-storage" := VStr "41Gi";
                  KStr "memory" := VStr "1019Mi" ]})), None)).
Proof.
  apply (setField_updates_parent ["kubeReserved"] "cpu" "50m" basicYAML).
  reflexivity.
Defined.

(** X10.  On a document whose map is nil, every get along a non-empty path
    fails on the first field ("does not exist"), and every [setField] along
    a non-empty path panics (assignment to entry in nil map); the document
    is unchanged. *)
Theorem nil_document k :
  config k = None →
  (∀ field rest,
     getSubfield (field :: rest) true k
       = (k, Returns (VNil, Some (ErrNoField field None)))) ∧
  (∀ field rest val,
     setField (field :: rest) val k = (k, Panics PanicNilMapAssign)).
Proof.
  destruct k as [r]. intros Hk. simpl in Hk. subst r. split; [done|].
  intros field rest val.
  destruct (fields_snoc (field :: rest) ltac:(done)) as (path & f & Heq).
  rewrite Heq, setField_snoc. by destruct path.
Qed.

Lemma nil_document_witness :
  getSubfield ["kubeReserved"; "cpu"] true {| config := None |}
    = ({| config := None |}, Returns (VNil, Some (ErrNoField "kubeReserved" None))) ∧
  setReservedCPU "50m" {| config := None |}
    = ({| config := None |}, Panics PanicNilMapAssign).
Proof.
  split.
  - apply (proj1 (nil_document {| config := None |} eq_refl)).
  - apply (proj2 (nil_document {| config := None |} eq_refl)).
Defined.

(** X14.  Two [setField]s along paths that branch off each other commute:
    when both orders succeed they give the same document. *)
Theorem setField_commute c a q b rest v1 v2 k k1 k12 k2 k21 :
  a ≠ b →
  setField (c ++ a :: q) v1 k = (k1, Returns None) →
  setField (c ++ b :: rest) v2 k1 = (k12, Returns None) →
  setField (c ++ b :: rest) v2 k = (k2, Returns None) →
  setField (c ++ a :: q) v1 k2 = (k21, Returns None) →
  k12 = k21.
Proof.
  intros Hab H1 H12 H2 H21.
  apply setField_result in H1, H12, H2, H21.
  rewrite H1 in H12. rewrite H2 in H21.
  rewrite <- set_path_commute in H21 by done. rewrite <- H12 in H21.
  destruct k12, k21. simpl in *. by injection H21 as ->.
Qed.

Lemma setField_commute_witness :
  (setField ["a"; "y"] "2" (setField ["a"; "x"] "1" basicYAML).1).1
    = (setField ["a"; "x"] "1" (setField ["a"; "y"] "2" basicYAML).1).1.
Proof.
  apply (setField_commute ["a"] "x" [] "y" [] "1" "2" basicYAML
           (setField ["a"; "x"] "1" basicYAML).1 _
           (setField ["a"; "y"] "2" basicYAML).1 _);
    [discriminate | reflexivity..].
Defined.

(** ** The marker, the calculator and their composition *)

Section codec_marker.
Context (yaml_error : Type).
Context (yaml_Unmarshal : string → gomap → gomap * option yaml_error).
Context (yaml_Marshal : gomap → string * option yaml_error).

(** X11.  The marker.  [getKubeconfig] hands the parser a document without
    its final marker, and strips one marker only; [unpack] appends the
    marker to what the printer gives, also when the printer fails, and
    returns the printer's error; so [getKubeconfig] on the output of
    [unpack] parses exactly what the printer gave. *)
Theorem marker_handling :
  (∀ body,
     getKubeconfig yaml_error yaml_Unmarshal (body +:+ kubeconfigSuffix)
       = ({| config := (yaml_Unmarshal body (Some ∅)).1 |},
          (yaml_Unmarshal body (Some ∅)).2)) ∧
  (∀ k,
     (unpack yaml_error yaml_Marshal k).1
       = (yaml_Marshal (config k)).1 +:+ kubeconfigSuffix ∧
     HasSuffix (unpack yaml_error yaml_Marshal k).1 kubeconfigSuffix = true ∧
     (unpack yaml_error yaml_Marshal k).2 = (yaml_Marshal (config k)).2 ∧
     getKubeconfig yaml_error yaml_Unmarshal (unpack yaml_error yaml_Marshal k).1
       = ({| config := (yaml_Unmarshal (yaml_Marshal (config k)).1 (Some ∅)).1 |},
          (yaml_Unmarshal (yaml_Marshal (config k)).1 (Some ∅)).2)).
Proof.
  assert (Hget : ∀ body,
    getKubeconfig yaml_error yaml_Unmarshal (body +:+ kubeconfigSuffix)
      = ({| config := (yaml_Unmarshal body (Some ∅)).1 |},
         (yaml_Unmarshal body (Some ∅)).2)).
  { intros body. unfold getKubeconfig. rewrite TrimSuffix_append.
    by destruct (yaml_Unmarshal body (Some ∅)). }
  split; [done|]. intros k.
  assert (Hun : (unpack yaml_error yaml_Marshal k).1
                  = (yaml_Marshal (config k)).1 +:+ kubeconfigSuffix).
  { unfold unpack. by destruct (yaml_Marshal (config k)). }
  split; [done|]. rewrite Hun. split; [apply HasSuffix_append|].
  split; [|apply Hget]. unfold unpack. by destruct (yaml_Marshal (config k)).
Qed.
End codec_marker.

(** X12.  Computing and setting again changes nothing more: when
    [computeReservedCPU] returns [v] and [setReservedCPU v] succeeds, the
    new document reads [v] and [computeReservedCPU] on it, with the same
    count, returns [v] again. *)
Theorem mitigation_stable mem cpus k k1 v :
  computeReservedCPU mem cpus k = (k, Returns (v, None)) →
  setReservedCPU v k = (k1, Returns None) →
  getReservedCPU k1 = (k1, Returns (v, None)) ∧
  computeReservedCPU mem cpus k1 = (k1, Returns (v, None)).
Proof.
  intros Hcomp Hset.
  pose proof (getFieldAsString_set _ _ _ _ Hset) as Hget.
  fold getReservedCPU in Hget. split; [done|].
  rewrite (computeReservedCPU_read mem cpus k1 v None) by by rewrite Hget.
  destruct (getReservedCPU_get k) as (val0 & err0 & Hget0).
  rewrite (computeReservedCPU_read mem cpus k val0 err0) in Hcomp by by rewrite Hget0.
  destruct ((cpus <=? 2) &&
            (bool_decide (None ≠ None) || String.eqb v gkeCustomReservedCPU))
    eqn:Hc; [done|].
  destruct ((cpus <=? 2) && _) eqn:Hc0 in Hcomp; [|by injection Hcomp as ->].
  injection Hcomp as -> ->. by rewrite Hc in Hc0.
Qed.

Lemma mitigation_stable_witness :
  getReservedCPU (setReservedCPU "70m" basicYAML).1
    = ((setReservedCPU "70m" basicYAML).1, Returns ("70m", None)) ∧
  computeReservedCPU (2 ^ 30) 2 (setReservedCPU "70m" basicYAML).1
    = ((setReservedCPU "70m" basicYAML).1, Returns ("70m", None)).
Proof.
  apply (mitigation_stable (2 ^ 30) 2 basicYAML); reflexivity.
Defined.


